(** * Coursework demos of comp-graf_2022.2: a shallow embedding

    The development follows three scripts of the repository:

    - the hierarchical robot ([Hierarchy.js]): the [Stack] class, the
      global placement matrices and angles, [handleKeyPress], [renderCube]
      and [draw];
    - the trackball camera ([simple-rotator.js]): [setView],
      [getViewMatrixArray], [getViewMatrix] and the mouse handlers;
    - the 2D demo ([CircleNPolyIntersec.js]): [circleCircleIntersect].

    Conventions.  A JavaScript number is a real number of [R]: sums,
    products, quotients, [Math.sqrt], [Math.cos] and [Math.sin] are the exact
    ones, so rounding, NaN and the infinities are outside the model.  The
    integer counter of the stack is a [Z].  [undefined] is [None].  What a
    function prints with [console.log] is returned as a list of lines. *)

From Stdlib Require Import ZArith List String Bool Lia.
From Stdlib Require Import Reals Lra.
Import ListNotations.

Set Implicit Arguments.

Local Open Scope R_scope.

(** ** Console output *)

(** One argument of a [console.log] call. *)
Inductive LogArg : Type :=
| LStr (s : string)
| LNum (n : Z).

(** One [console.log] call: its arguments, in order. *)
Definition LogLine : Type := list LogArg.

Definition underflow_warning : LogLine :=
  [LStr "Warning: stack underflow"].

(** ** JavaScript arrays indexed by integers

    [this.elements] is only ever read and written through an integer index,
    never through [length]; an array is therefore the map from an index to
    the value stored there, [None] where nothing (or [undefined]) is
    stored.  A write at any index, inside or outside the current extent,
    makes later reads at that index return the written value. *)
Module JSArray.
Section Elements.
Variable V : Type.

Definition array : Type := Z -> option V.

(** [[]] *)
Definition empty : array := fun _ => None.

(** [a[i]] *)
Definition get (a : array) (i : Z) : option V := a i.

(** [a[i] = v] *)
Definition set (a : array) (i : Z) (v : option V) : array :=
  fun k => if (k =? i)%Z then v else a k.

End Elements.
End JSArray.

(** ** class Stack *)
Module Stack.
Section WithValue.
Variable V : Type.

(** The two fields set by the constructor. *)
Record Stack : Type := mkStack {
  elements : JSArray.array V;
  t : Z
}.

(** [new Stack()] *)
Definition new : Stack := {| elements := JSArray.empty V; t := 0 |}.

(** [push(m)]: [this.elements[this.t++] = m]. *)
Definition push (m : V) (s : Stack) : Stack :=
  {| elements := JSArray.set (elements s) (t s) (Some m);
     t := t s + 1 |}.

(** [top()]: the returned value and the lines logged. *)
Definition top (s : Stack) : option V * list LogLine :=
  if (t s <=? 0)%Z
  then (None, [[LStr "top = "; LNum (t s)]; underflow_warning])
  else (JSArray.get (elements s) (t s - 1), []).

(** [pop()]: the returned value, the stack afterwards, the lines logged. *)
Definition pop (s : Stack) : option V * Stack * list LogLine :=
  if (t s <=? 0)%Z
  then (None, s, [underflow_warning])
  else
    let t' := (t s - 1)%Z in
    let temp := JSArray.get (elements s) t' in
    (temp,
     {| elements := JSArray.set (elements s) t' None; t := t' |},
     []).

(** [isEmpty()] *)
Definition isEmpty (s : Stack) : bool := (t s <=? 0)%Z.

(** The depth of the stack is its counter [t]. *)
Definition depth (s : Stack) : Z := t s.

(** *** Sequences of calls *)

Inductive Call : Type :=
| CPush (m : V)
| CPop.

Definition is_push (c : Call) : bool :=
  match c with CPush _ => true | CPop => false end.

Definition is_pop (c : Call) : bool :=
  match c with CPush _ => false | CPop => true end.

Definition step (c : Call) (s : Stack) : Stack :=
  match c with
  | CPush m => push m s
  | CPop => snd (fst (pop s))
  end.

Fixpoint run (cs : list Call) (s : Stack) : Stack :=
  match cs with
  | [] => s
  | c :: cs' => run cs' (step c s)
  end.

Definition pushes (cs : list Call) : Z :=
  Z.of_nat (List.length (filter is_push cs)).

Definition pops (cs : list Call) : Z :=
  Z.of_nat (List.length (filter is_pop cs)).

(** No [pop] of the sequence is called at depth zero, when the sequence
    starts at depth [d]. *)
Fixpoint no_underflow (d : Z) (cs : list Call) : bool :=
  match cs with
  | [] => true
  | CPush _ :: cs' => no_underflow (d + 1) cs'
  | CPop :: cs' => (0 <? d)%Z && no_underflow (d - 1) cs'
  end.

(** The number of [pop] calls of the sequence that find the stack empty. *)
Fixpoint underflows (d : Z) (cs : list Call) : Z :=
  match cs with
  | [] => 0
  | CPush _ :: cs' => underflows (d + 1) cs'
  | CPop :: cs' =>
      if (d <=? 0)%Z then 1 + underflows d cs' else underflows (d - 1) cs'
  end.

(** The states a program can bring a stack into: the constructor, then
    any calls of the methods that change it. *)
Inductive reachable : Stack -> Prop :=
| reach_new : reachable new
| reach_push m s : reachable s -> reachable (push m s)
| reach_pop s : reachable s -> reachable (snd (fst (pop s))).

(** The slots at and above the counter hold nothing. *)
Definition above_clear (s : Stack) : Prop :=
  forall k, (t s <= k)%Z -> JSArray.get (elements s) k = None.

(** *** The stack as a list *)

(** The stack [s] holds the values of [l], the first pushed first: its
    counter is the length of [l], slot [k] holds the [k]-th value, and
    every other slot is empty. *)
Definition represents (l : list V) (s : Stack) : Prop :=
  t s = Z.of_nat (List.length l) /\
  forall k,
    JSArray.get (elements s) k
    = if (0 <=? k)%Z then nth_error l (Z.to_nat k) else None.

(** [push] of each value of [ms], in order. *)
Fixpoint push_all (ms : list V) (s : Stack) : Stack :=
  match ms with
  | [] => s
  | m :: ms' => push_all ms' (push m s)
  end.

(** [n] calls of [pop]: the values returned, in order, the stack
    afterwards, and everything logged. *)
Fixpoint pop_n (n : nat) (s : Stack)
  : list (option V) * Stack * list LogLine :=
  match n with
  | O => ([], s, [])
  | S n' =>
      match pop s with
      | (v, s', ls) =>
          match pop_n n' s' with
          | (vs, s'', ls') => (v :: vs, s'', ls ++ ls')
          end
      end
  end.

End WithValue.

Arguments new {V}.
Arguments CPop {V}.
Arguments mkStack {V} _ _.
End Stack.

(** ** Numbers *)
Module Num.

(** [x === y] on numbers *)
Definition eqb (x y : R) : bool := if Req_dec_T x y then true else false.

(** [x < y] *)
Definition ltb (x y : R) : bool := if Rlt_dec x y then true else false.

(** [x > y] *)
Definition gtb (x y : R) : bool := if Rgt_dec x y then true else false.

(** A number in a condition: [0] is falsy, every other number is truthy. *)
Definition truthy (x : R) : bool := negb (eqb x 0).

(** [x <= y] *)
Definition leb (x y : R) : bool := if Rle_dec x y then true else false.

End Num.

(** ** Matrix4 (cuon-matrix.js)

    The script of the robot builds every transform with the [Matrix4] class
    of cuon-matrix.js, which the page loads next to it and which is not
    among the sources.  The class is modelled here: sixteen numbers in
    column-major order and the methods the script calls. *)
Module Matrix4.

(** Modelled from the spec: the [elements] array of a [Matrix4] of
    cuon-matrix.js, which is missing; a 4x4 model matrix, [e_(4c+r)] being
    the entry of row [r] and column [c]. *)
Record Matrix4 : Type := mk {
  e0 : R; e1 : R; e2 : R; e3 : R;
  e4 : R; e5 : R; e6 : R; e7 : R;
  e8 : R; e9 : R; e10 : R; e11 : R;
  e12 : R; e13 : R; e14 : R; e15 : R
}.

(** Modelled from the spec: [new Matrix4()] of the missing cuon-matrix.js,
    the identity. *)
Definition identity : Matrix4 :=
  mk 1 0 0 0
     0 1 0 0
     0 0 1 0
     0 0 0 1.

(** Modelled from the spec: [new Matrix4(src)] of the missing
    cuon-matrix.js, a copy of [src], and the identity when [src] is
    [undefined]. *)
Definition create (src : option Matrix4) : Matrix4 :=
  match src with
  | Some m => m
  | None => identity
  end.

(** Modelled from the spec: [setTranslate(x, y, z)] of the missing
    cuon-matrix.js; the receiver becomes the translation by [(x, y, z)]. *)
Definition setTranslate (this : Matrix4) (x y z : R) : Matrix4 :=
  mk 1 0 0 0
     0 1 0 0
     0 0 1 0
     x y z 1.

(** Modelled from the spec: [setScale(x, y, z)] of the missing
    cuon-matrix.js; the receiver becomes the scaling by [(x, y, z)]. *)
Definition setScale (this : Matrix4) (x y z : R) : Matrix4 :=
  mk x 0 0 0
     0 y 0 0
     0 0 z 0
     0 0 0 1.

(** Modelled from the spec: [concat(other)], also named [multiply], of the
    missing cuon-matrix.js; the receiver becomes [this * other]. *)
Definition concat (a b : Matrix4) : Matrix4 :=
  mk (e0 a * e0 b + e4 a * e1 b + e8 a * e2 b + e12 a * e3 b)
     (e1 a * e0 b + e5 a * e1 b + e9 a * e2 b + e13 a * e3 b)
     (e2 a * e0 b + e6 a * e1 b + e10 a * e2 b + e14 a * e3 b)
     (e3 a * e0 b + e7 a * e1 b + e11 a * e2 b + e15 a * e3 b)
     (e0 a * e4 b + e4 a * e5 b + e8 a * e6 b + e12 a * e7 b)
     (e1 a * e4 b + e5 a * e5 b + e9 a * e6 b + e13 a * e7 b)
     (e2 a * e4 b + e6 a * e5 b + e10 a * e6 b + e14 a * e7 b)
     (e3 a * e4 b + e7 a * e5 b + e11 a * e6 b + e15 a * e7 b)
     (e0 a * e8 b + e4 a * e9 b + e8 a * e10 b + e12 a * e11 b)
     (e1 a * e8 b + e5 a * e9 b + e9 a * e10 b + e13 a * e11 b)
     (e2 a * e8 b + e6 a * e9 b + e10 a * e10 b + e14 a * e11 b)
     (e3 a * e8 b + e7 a * e9 b + e11 a * e10 b + e15 a * e11 b)
     (e0 a * e12 b + e4 a * e13 b + e8 a * e14 b + e12 a * e15 b)
     (e1 a * e12 b + e5 a * e13 b + e9 a * e14 b + e13 a * e15 b)
     (e2 a * e12 b + e6 a * e13 b + e10 a * e14 b + e14 a * e15 b)
     (e3 a * e12 b + e7 a * e13 b + e11 a * e14 b + e15 a * e15 b).

Definition multiply : Matrix4 -> Matrix4 -> Matrix4 := concat.

(** Modelled from the spec: [translate(x, y, z)] of the missing
    cuon-matrix.js; the receiver is multiplied on the right by the
    translation by [(x, y, z)]. *)
Definition translate (a : Matrix4) (x y z : R) : Matrix4 :=
  mk (e0 a) (e1 a) (e2 a) (e3 a)
     (e4 a) (e5 a) (e6 a) (e7 a)
     (e8 a) (e9 a) (e10 a) (e11 a)
     (e12 a + (e0 a * x + e4 a * y + e8 a * z))
     (e13 a + (e1 a * x + e5 a * y + e9 a * z))
     (e14 a + (e2 a * x + e6 a * y + e10 a * z))
     (e15 a + (e3 a * x + e7 a * y + e11 a * z)).

(** Modelled from the spec: [setRotate(angle, x, y, z)] of the missing
    cuon-matrix.js; the receiver becomes the rotation by [angle] degrees
    about the axis [(x, y, z)], the coordinate axes being told apart from
    the others. *)
Definition setRotate (this : Matrix4) (angle x y z : R) : Matrix4 :=
  let angle := PI * angle / 180 in
  let s := sin angle in
  let c := cos angle in
  if negb (Num.eqb 0 x) && Num.eqb 0 y && Num.eqb 0 z then
    let s := if Num.ltb x 0 then - s else s in
    mk 1 0 0 0
       0 c s 0
       0 (- s) c 0
       0 0 0 1
  else if Num.eqb 0 x && negb (Num.eqb 0 y) && Num.eqb 0 z then
    let s := if Num.ltb y 0 then - s else s in
    mk c 0 (- s) 0
       0 1 0 0
       s 0 c 0
       0 0 0 1
  else if Num.eqb 0 x && Num.eqb 0 y && negb (Num.eqb 0 z) then
    let s := if Num.ltb z 0 then - s else s in
    mk c s 0 0
       (- s) c 0 0
       0 0 1 0
       0 0 0 1
  else
    let len := sqrt (x * x + y * y + z * z) in
    let rlen := 1 / len in
    let x := if Num.eqb len 1 then x else x * rlen in
    let y := if Num.eqb len 1 then y else y * rlen in
    let z := if Num.eqb len 1 then z else z * rlen in
    let nc := 1 - c in
    let xy := x * y in
    let yz := y * z in
    let zx := z * x in
    let xs := x * s in
    let ys := y * s in
    let zs := z * s in
    mk (x * x * nc + c) (xy * nc + zs) (zx * nc - ys) 0
       (xy * nc - zs) (y * y * nc + c) (yz * nc + xs) 0
       (zx * nc + ys) (yz * nc - xs) (z * z * nc + c) 0
       0 0 0 1.

(** Modelled from the spec: [rotate(angle, x, y, z)] of the missing
    cuon-matrix.js; the receiver is multiplied on the right by the
    rotation. *)
Definition rotate (this : Matrix4) (angle x y z : R) : Matrix4 :=
  concat this (setRotate identity angle x y z).

(** Degrees to radians, as [setRotate] converts them. *)
Definition rad (angle : R) : R := PI * angle / 180.

(** A rigid motion: the last row is [0 0 0 1] and the three columns of
    the upper left 3x3 block are orthonormal, so the matrix rotates and
    translates but neither scales nor shears. *)
Definition rigid (m : Matrix4) : Prop :=
  e3 m = 0 /\ e7 m = 0 /\ e11 m = 0 /\ e15 m = 1 /\
  e0 m * e0 m + e1 m * e1 m + e2 m * e2 m = 1 /\
  e4 m * e4 m + e5 m * e5 m + e6 m * e6 m = 1 /\
  e8 m * e8 m + e9 m * e9 m + e10 m * e10 m = 1 /\
  e0 m * e4 m + e1 m * e5 m + e2 m * e6 m = 0 /\
  e0 m * e8 m + e1 m * e9 m + e2 m * e10 m = 0 /\
  e4 m * e8 m + e5 m * e9 m + e6 m * e10 m = 0.

(** The sixteen elements as an array. *)
Definition to_list (a : Matrix4) : list R :=
  [e0 a; e1 a; e2 a; e3 a; e4 a; e5 a; e6 a; e7 a;
   e8 a; e9 a; e10 a; e11 a; e12 a; e13 a; e14 a; e15 a].

End Matrix4.

(** ** SimpleRotator (simple-rotator.js) *)
Module SimpleRotator.

(** An array of three numbers. *)
Record vec3 : Type := V3 { c0 : R; c1 : R; c2 : R }.

(** The helper functions write their result into their first argument;
    here they return it.  Where the script passes the same array as
    destination and as source, every component written depends only on the
    same component of the source and on numbers computed before the first
    write, so the value returned is the one the script stores. *)

Definition dot (v w : vec3) : R :=
  c0 v * c0 w + c1 v * c1 w + c2 v * c2 w.

Definition length (v : vec3) : R :=
  sqrt (c0 v * c0 v + c1 v * c1 v + c2 v * c2 v).

Definition normalize (w : vec3) : vec3 :=
  let d := length w in
  V3 (c0 w / d) (c1 w / d) (c2 w / d).

Definition copy (w : vec3) : vec3 := V3 (c0 w) (c1 w) (c2 w).

Definition add (v w : vec3) : vec3 :=
  V3 (c0 v + c0 w) (c1 v + c1 w) (c2 v + c2 w).

Definition subtract (v w : vec3) : vec3 :=
  V3 (c0 v - c0 w) (c1 v - c1 w) (c2 v - c2 w).

Definition scale (v : vec3) (num : R) : vec3 :=
  V3 (c0 v * num) (c1 v * num) (c2 v * num).

Definition cross (v w : vec3) : vec3 :=
  let x := c1 v * c2 w - c2 v * c1 w in
  let y := c2 v * c0 w - c0 v * c2 w in
  let z := c0 v * c1 w - c1 v * c0 w in
  V3 x y z.

(** The canvas the rotator is attached to. *)
Record Canvas : Type := mkCanvas { width : R; height : R }.

(** The variables of the constructor's closure. *)
Record Rotator : Type := mkRotator {
  unitx : vec3;
  unity : vec3;
  unitz : vec3;
  viewZ : R;
  prevx : option R;
  prevy : option R;
  dragging : bool
}.

Definition centerX (cv : Canvas) : R := width cv / 2.
Definition centerY (cv : Canvas) : R := height cv / 2.
Definition radius (cv : Canvas) : R := Rmin (centerX cv) (centerY cv).
Definition radius2 (cv : Canvas) : R := radius cv * radius cv.

(** [this.setView(viewDirectionVector, viewUpVector, viewDistance)]; an
    argument that is not given is [None]. *)
Definition setView (viewDirectionVector viewUpVector : option vec3)
    (viewDistance : option R) (r : Rotator) : Rotator :=
  let viewpoint :=
    match viewDirectionVector with Some v => v | None => V3 0 0 10 end in
  let viewup :=
    match viewUpVector with Some v => v | None => V3 0 1 0 end in
  let viewZ' :=
    match viewDistance with
    | Some d => if Num.truthy d then d else length viewpoint
    | None => length viewpoint
    end in
  let unitz1 := copy viewpoint in
  let unitz2 := normalize unitz1 in
  let unity1 := copy unitz2 in
  let unity2 := scale unity1 (dot unitz2 viewup) in
  let unity3 := subtract viewup unity2 in
  let unity4 := normalize unity3 in
  let unitx1 := cross unity4 unitz2 in
  {| unitx := unitx1; unity := unity4; unitz := unitz2; viewZ := viewZ';
     prevx := prevx r; prevy := prevy r; dragging := dragging r |}.

(** [this.getViewMatrixArray()] *)
Definition getViewMatrixArray (r : Rotator) : list R :=
  [ c0 (unitx r); c0 (unity r); c0 (unitz r); 0;
    c1 (unitx r); c1 (unity r); c1 (unitz r); 0;
    c2 (unitx r); c2 (unity r); c2 (unitz r); 0;
    0; 0; - viewZ r; 1 ].

(** [new Float32Array(a)]: the typed array holds the numbers of [a]. *)
Definition Float32Array (a : list R) : list R := a.

(** [this.getViewMatrix()] *)
Definition getViewMatrix (r : Rotator) : list R :=
  Float32Array (getViewMatrixArray r).

(** [this.getViewDistance()] *)
Definition getViewDistance (r : Rotator) : R := viewZ r.

(** [this.setViewDistance(viewDistance)] *)
Definition setViewDistance (viewDistance : R) (r : Rotator) : Rotator :=
  {| unitx := unitx r; unity := unity r; unitz := unitz r;
     viewZ := viewDistance;
     prevx := prevx r; prevy := prevy r; dragging := dragging r |}.

(** [reflectInAxis(axis, source, destination)], returning [destination]. *)
Definition reflectInAxis (axis source : vec3) : vec3 :=
  let s := 2 * (c0 axis * c0 source + c1 axis * c1 source
                + c2 axis * c2 source) in
  V3 (s * c0 axis - c0 source) (s * c1 axis - c1 source)
     (s * c2 axis - c2 source).

(** [applyTransvection(e1, e2)]: rotate vector [e1] onto [e2]. *)
Definition applyTransvection (e1 e2 : vec3) (r : Rotator) : Rotator :=
  let e1 := normalize e1 in
  let e2 := normalize e2 in
  let e := normalize (add e1 e2) in
  let unitz' := reflectInAxis e1 (reflectInAxis e (unitz r)) in
  let unitx' := reflectInAxis e1 (reflectInAxis e (unitx r)) in
  let unity' := reflectInAxis e1 (reflectInAxis e (unity r)) in
  {| unitx := unitx'; unity := unity'; unitz := unitz'; viewZ := viewZ r;
     prevx := prevx r; prevy := prevy r; dragging := dragging r |}.

(** [toRay(x, y)] *)
Definition toRay (cv : Canvas) (r : Rotator) (x y : R) : vec3 :=
  let dx := x - centerX cv in
  let dy := centerY cv - y in
  let vx := dx * c0 (unitx r) + dy * c0 (unity r) in
  let vy := dx * c1 (unitx r) + dy * c1 (unity r) in
  let vz := dx * c2 (unitx r) + dy * c2 (unity r) in
  let dist2 := vx * vx + vy * vy + vz * vz in
  if Num.gtb dist2 (radius2 cv) then V3 vx vy vz
  else
    let z := sqrt (radius2 cv - dist2) in
    V3 (vx + z * c0 (unitz r)) (vy + z * c1 (unitz r))
       (vz + z * c2 (unitz r)).

(** The mouse handlers.  [x] and [y] are the coordinates the handler
    computes from the event, [window.pageXOffset + evt.clientX - box.left]
    and likewise for [y]. *)
Definition doMouseDown (x y : R) (r : Rotator) : Rotator :=
  if dragging r then r
  else
    {| unitx := unitx r; unity := unity r; unitz := unitz r;
       viewZ := viewZ r;
       prevx := Some x; prevy := Some y; dragging := true |}.

Definition doMouseDrag (cv : Canvas) (x y : R) (r : Rotator) : Rotator :=
  if negb (dragging r) then r
  else
    match prevx r, prevy r with
    | Some px, Some py =>
        let ray1 := toRay cv r px py in
        let ray2 := toRay cv r x y in
        let r' := applyTransvection ray1 ray2 r in
        {| unitx := unitx r'; unity := unity r'; unitz := unitz r';
           viewZ := viewZ r';
           prevx := Some x; prevy := Some y; dragging := dragging r' |}
    | _, _ => r
    end.

Definition doMouseUp (r : Rotator) : Rotator :=
  if dragging r then
    {| unitx := unitx r; unity := unity r; unitz := unitz r;
       viewZ := viewZ r;
       prevx := prevx r; prevy := prevy r; dragging := false |}
  else r.

(** [new SimpleRotator(canvas, callback, viewDirectionVector, viewUpVector,
    viewDistance)]: the closure variables after the constructor has run.
    The three unit vectors are fresh arrays that [setView] fills. *)
Definition new (cv : Canvas) (viewDirectionVector viewUpVector : option vec3)
    (viewDistance : option R) : Rotator :=
  setView viewDirectionVector viewUpVector viewDistance
    {| unitx := V3 0 0 0; unity := V3 0 0 0; unitz := V3 0 0 0; viewZ := 0;
       prevx := None; prevy := None; dragging := false |}.

(** What can happen to a rotator after its construction: the three mouse
    events, and a call of [setViewDistance].  The listeners for
    [mousemove] and [mouseup] are registered by [doMouseDown] and removed
    by [doMouseUp], that is exactly while [dragging] holds, and both
    handlers test [dragging] themselves. *)
Inductive Event : Type :=
| MouseDown (x y : R)
| MouseMove (x y : R)
| MouseUp
| SetViewDistance (d : R).

Definition handle (cv : Canvas) (ev : Event) (r : Rotator) : Rotator :=
  match ev with
  | MouseDown x y => doMouseDown x y r
  | MouseMove x y => doMouseDrag cv x y r
  | MouseUp => doMouseUp r
  | SetViewDistance d => setViewDistance d r
  end.

Fixpoint handle_all (cv : Canvas) (evs : list Event) (r : Rotator)
  : Rotator :=
  match evs with
  | [] => r
  | ev :: evs' => handle_all cv evs' (handle cv ev r)
  end.

(** No drag is performed by the events [evs] received in state [r]: no
    [mousemove] arrives while a mouse button is held down. *)
Fixpoint no_drag (cv : Canvas) (evs : list Event) (r : Rotator) : bool :=
  match evs with
  | [] => true
  | ev :: evs' =>
      match ev with
      | MouseMove _ _ => negb (dragging r)
      | _ => true
      end && no_drag cv evs' (handle cv ev r)
  end.

(** The view matrix the claim describes: the basis obtained from a view
    direction and an up vector, and a view distance, with no rotation. *)
Definition basis_z (dir : vec3) : vec3 :=
  let d := sqrt (c0 dir * c0 dir + c1 dir * c1 dir + c2 dir * c2 dir) in
  V3 (c0 dir / d) (c1 dir / d) (c2 dir / d).

Definition basis_y (dir up : vec3) : vec3 :=
  let z := basis_z dir in
  let k := c0 z * c0 up + c1 z * c1 up + c2 z * c2 up in
  let p := V3 (c0 up - c0 z * k) (c1 up - c1 z * k) (c2 up - c2 z * k) in
  let d := sqrt (c0 p * c0 p + c1 p * c1 p + c2 p * c2 p) in
  V3 (c0 p / d) (c1 p / d) (c2 p / d).

Definition basis_x (dir up : vec3) : vec3 :=
  let y := basis_y dir up in
  let z := basis_z dir in
  V3 (c1 y * c2 z - c2 y * c1 z) (c2 y * c0 z - c0 y * c2 z)
     (c0 y * c1 z - c1 y * c0 z).

(** The view distance after the events [evs], when it was [d] before:
    the argument of the last [setViewDistance], if any. *)
Fixpoint distance_after (evs : list Event) (d : R) : R :=
  match evs with
  | [] => d
  | SetViewDistance d' :: evs' => distance_after evs' d'
  | _ :: evs' => distance_after evs' d
  end.

Definition column_major_view (x y z : vec3) (distance : R) : list R :=
  [ c0 x; c0 y; c0 z; 0;
    c1 x; c1 y; c1 z; 0;
    c2 x; c2 y; c2 z; 0;
    0; 0; - distance; 1 ].

(** [this.setViewMatrix(matrix)]: the nine rotation entries of a
    column-major view matrix are stored into the unit vectors; the view
    distance is not touched.  [matrix] has sixteen elements ([nth] reads
    them; an index beyond the end of a shorter array, which would read
    [undefined], is outside the model). *)
Definition setViewMatrix (matrix : list R) (r : Rotator) : Rotator :=
  {| unitx := V3 (nth 0 matrix 0) (nth 4 matrix 0) (nth 8 matrix 0);
     unity := V3 (nth 1 matrix 0) (nth 5 matrix 0) (nth 9 matrix 0);
     unitz := V3 (nth 2 matrix 0) (nth 6 matrix 0) (nth 10 matrix 0);
     viewZ := viewZ r;
     prevx := prevx r; prevy := prevy r; dragging := dragging r |}.

(** The three unit vectors have length one and are perpendicular to each
    other. *)
Definition orthonormal (r : Rotator) : Prop :=
  dot (unitx r) (unitx r) = 1 /\ dot (unity r) (unity r) = 1 /\
  dot (unitz r) (unitz r) = 1 /\ dot (unitx r) (unity r) = 0 /\
  dot (unity r) (unitz r) = 0 /\ dot (unitx r) (unitz r) = 0.

End SimpleRotator.

(** ** The hierarchical robot (Hierarchy.js) *)
Module Hierarchy.

Import Matrix4.

(** The fourteen body parts, in the order their placement matrices are
    declared. *)
Inductive Part : Type :=
| torso | shoulderLeft | shoulderRight | armLeft | armRight
| handLeft | handRight | head | legLeft | legRight
| footLeft | footRight | ankleRight | ankleLeft.

Definition Part_eq_dec (p q : Part) : {p = q} + {p <> q}.
Proof. decide equality. Defined.

Definition all_parts : list Part :=
  [torso; shoulderLeft; shoulderRight; armLeft; armRight;
   handLeft; handRight; head; legLeft; legRight;
   footLeft; footRight; ankleRight; ankleLeft].

(** The global variables the key handler writes: [Matrix g p] is the
    variable [pMatrix] (so [Matrix g torso] is [torsoMatrix]) and
    [Angle g p] is the variable [pAngle]. *)
Record Globals : Type := mkGlobals {
  Matrix : Part -> Matrix4;
  Angle : Part -> R
}.

(** Assignment to the variable of one part. *)
Definition upd (A : Type) (f : Part -> A) (p : Part) (v : A) : Part -> A :=
  fun q => if Part_eq_dec q p then v else f q.

(** The placement matrices as the script declares them. *)
Definition initialMatrix (p : Part) : Matrix4 :=
  match p with
  | torso => setTranslate identity 0 0 0
  | shoulderLeft => setTranslate identity 6.5 2 0
  | shoulderRight => setTranslate identity (-6.5) 2 0
  | armLeft => setTranslate identity 0 (-5) 0
  | armRight => setTranslate identity 0 (-5) 0
  | handLeft => setTranslate identity 0 (-4) 0
  | handRight => setTranslate identity 0 (-4) 0
  | head => setTranslate identity 0 7 0
  | legLeft => setTranslate identity (-2) (-7) 0
  | legRight => setTranslate identity 2 (-7) 0
  | footLeft => setTranslate identity 0 (-2) 1.6
  | footRight => setTranslate identity 0 (-2) 1.6
  | ankleRight => setTranslate identity 0 (-4) 0
  | ankleLeft => setTranslate identity 0 (-4) 0
  end.

(** The state when the script has been loaded: every angle is [0.0]. *)
Definition initial : Globals :=
  {| Matrix := initialMatrix; Angle := fun _ => 0 |}.

(** [pMatrixLocal], the scale of each part; never assigned again. *)
Definition MatrixLocal (p : Part) : Matrix4 :=
  match p with
  | torso => setScale identity 10 10 5
  | shoulderLeft => setScale identity 3 5 2
  | shoulderRight => setScale identity 3 5 2
  | armRight => setScale identity 3 5 2
  | armLeft => setScale identity 3 5 2
  | handLeft => setScale identity 1 3 3
  | handRight => setScale identity 1 3 3
  | head => setScale identity 4 4 4
  | legLeft => setScale identity 3 4 2
  | legRight => setScale identity 3 4 2
  | footLeft => setScale identity 3 1 5
  | footRight => setScale identity 3 1 5
  | ankleLeft => setScale identity 3 4 2
  | ankleRight => setScale identity 3 4 2
  end.

(** *** handleKeyPress *)

(** [+= 15] and [-= 15] *)
Inductive Step : Type := Plus15 | Minus15.

Definition apply_step (d : Step) (a : R) : R :=
  match d with
  | Plus15 => a + 15
  | Minus15 => a - 15
  end.

(** The cases of the form
    [pAngle += 15; pMatrix.setTranslate(tx, ty, tz).rotate(pAngle, 0, 1, 0)]. *)
Definition turn (p : Part) (d : Step) (tx ty tz : R) (g : Globals)
  : Globals :=
  let a := apply_step d (Angle g p) in
  {| Angle := upd (Angle g) p a;
     Matrix := upd (Matrix g) p
                 (rotate (setTranslate (Matrix g p) tx ty tz) a 0 1 0) |}.

(** The cases of the form
    [pAngle += 15;
     var current = new Matrix4().setTranslate(px, py, pz)
                     .rotate(-pAngle, 1, 0, 0).translate(bx, by, bz);
     pMatrix.setTranslate(tx, ty, tz).multiply(current)]. *)
Definition swing (p : Part) (d : Step) (px py pz bx by_ bz tx ty tz : R)
    (g : Globals) : Globals :=
  let a := apply_step d (Angle g p) in
  let current :=
    translate (rotate (setTranslate (create None) px py pz) (- a) 1 0 0)
              bx by_ bz in
  {| Angle := upd (Angle g) p a;
     Matrix := upd (Matrix g) p
                 (multiply (setTranslate (Matrix g p) tx ty tz) current) |}.

(** The [case] labels of the [switch], in their order, each with the
    effect of its statements on the global variables. *)
Definition cases : list (string * (Globals -> Globals)) :=
  [ ("t", turn torso Plus15 0 0 0);
    ("T", turn torso Minus15 0 0 0);
    ("s", swing shoulderRight Plus15 0 2 0 0 (-2) 0 (-6.5) 2 0);
    ("S", swing shoulderRight Minus15 0 2 0 0 (-2) 0 (-6.5) 2 0);
    ("a", swing armRight Plus15 0 2.5 1.0 0 (-2.5) (-1.0) 0 (-5) 0);
    ("A", swing armRight Minus15 0 2.5 1.0 0 (-2.5) (-1.0) 0 (-5) 0);
    ("e", swing armLeft Plus15 0 2.5 1.0 0 (-2.5) (-1.0) 0 (-5) 0);
    ("E", swing armLeft Minus15 0 2.5 1.0 0 (-2.5) (-1.0) 0 (-5) 0);
    ("h", turn handLeft Plus15 0 (-4) 0);
    ("H", turn handLeft Minus15 0 (-4) 0);
    ("Q", turn handRight Plus15 0 (-4) 0);
    ("q", turn handRight Minus15 0 (-4) 0);
    ("l", turn head Plus15 0 7 0);
    ("L", turn head Minus15 0 7 0);
    ("d", swing shoulderLeft Plus15 0 2 0 0 (-2) 0 6.5 2 0);
    ("D", swing shoulderLeft Minus15 0 2 0 0 (-2) 0 6.5 2 0);
    ("f", swing legRight Plus15 0 2 0 0 (-2) 0 3 (-7) 0);
    ("F", swing legRight Minus15 0 2 0 0 (-2) 0 3 (-7) 0);
    ("g", swing legLeft Plus15 0 2 0 0 (-2) 0 (-2) (-7) 0);
    ("G", swing legLeft Minus15 0 2 0 0 (-2) 0 (-2) (-7) 0);
    ("j", swing ankleLeft Plus15 0 2 0 0 (-2) 0 0 (-4) 0);
    ("J", swing ankleLeft Minus15 0 2 0 0 (-2) 0 0 (-4) 0);
    ("k", swing ankleRight Plus15 0 2 0 0 (-2) 0 0 (-4) 0);
    ("K", swing ankleRight Minus15 0 2 0 0 (-2) 0 0 (-4) 0) ]%string.

(** [switch (ch)]: the first label strictly equal to [ch]. *)
Fixpoint switch (ch : string) (cs : list (string * (Globals -> Globals)))
  : option (Globals -> Globals) :=
  match cs with
  | [] => None
  | (label, body) :: cs' =>
      if String.eqb ch label then Some body else switch ch cs'
  end.

(** [handleKeyPress(event)], as a function of [ch = getChar(event)], which
    is a string or [null] ([None]); the result is the value of the global
    variables when the handler returns.  The write to the [options]
    element after the [switch] touches none of them. *)
Definition handleKeyPress (ch : option string) (g : Globals) : Globals :=
  match ch with
  | None => g
  | Some c =>
      match switch c cases with
      | Some body => body g
      | None => g
      end
  end.

(** A sequence of key presses. *)
Fixpoint handleKeys (chs : list (option string)) (g : Globals) : Globals :=
  match chs with
  | [] => g
  | ch :: chs' => handleKeys chs' (handleKeyPress ch g)
  end.

(** The keys that increment and decrement the angle of a part; the feet
    have none. *)
Definition keys (p : Part) : option (string * string) :=
  match p with
  | torso => Some ("t", "T")
  | shoulderRight => Some ("s", "S")
  | armRight => Some ("a", "A")
  | armLeft => Some ("e", "E")
  | handLeft => Some ("h", "H")
  | handRight => Some ("Q", "q")
  | head => Some ("l", "L")
  | shoulderLeft => Some ("d", "D")
  | legRight => Some ("f", "F")
  | legLeft => Some ("g", "G")
  | ankleLeft => Some ("j", "J")
  | ankleRight => Some ("k", "K")
  | footLeft => None
  | footRight => None
  end%string.

(** The labels of the [switch]. *)
Definition recognized (ch : string) : bool :=
  existsb (fun c => String.eqb ch (fst c)) cases.

(** The characters that are not a body-part key, [null] among them. *)
Definition unrecognized (ch : option string) : bool :=
  match ch with
  | None => true
  | Some c => negb (recognized c)
  end.

(** *** The placement of a part as a function of its angle *)

(** The matrix the cases of the first form store. *)
Definition turn_pose (tx ty tz a : R) : Matrix4 :=
  rotate (setTranslate identity tx ty tz) a 0 1 0.

(** The matrix the cases of the second form store. *)
Definition swing_pose (px py pz bx by_ bz tx ty tz a : R) : Matrix4 :=
  multiply (setTranslate identity tx ty tz)
    (translate (rotate (setTranslate (create None) px py pz) (- a) 1 0 0)
               bx by_ bz).

(** The matrix that both keys of part [p] store in [pMatrix] when they
    have brought [pAngle] to [a]; the feet have no key and keep the matrix
    they are declared with. *)
Definition pose (p : Part) (a : R) : Matrix4 :=
  match p with
  | torso => turn_pose 0 0 0 a
  | shoulderRight => swing_pose 0 2 0 0 (-2) 0 (-6.5) 2 0 a
  | armRight => swing_pose 0 2.5 1.0 0 (-2.5) (-1.0) 0 (-5) 0 a
  | armLeft => swing_pose 0 2.5 1.0 0 (-2.5) (-1.0) 0 (-5) 0 a
  | handLeft => turn_pose 0 (-4) 0 a
  | handRight => turn_pose 0 (-4) 0 a
  | head => turn_pose 0 7 0 a
  | shoulderLeft => swing_pose 0 2 0 0 (-2) 0 6.5 2 0 a
  | legRight => swing_pose 0 2 0 0 (-2) 0 3 (-7) 0 a
  | legLeft => swing_pose 0 2 0 0 (-2) 0 (-2) (-7) 0 a
  | ankleLeft => swing_pose 0 2 0 0 (-2) 0 0 (-4) 0 a
  | ankleRight => swing_pose 0 2 0 0 (-2) 0 0 (-4) 0 a
  | footLeft => initialMatrix footLeft
  | footRight => initialMatrix footRight
  end.

(** One key press on part [p]: the angle moves by one step and the matrix
    is computed again from the new angle. *)
Definition bump (p : Part) (d : Step) (g : Globals) : Globals :=
  let a := apply_step d (Angle g p) in
  {| Angle := upd (Angle g) p a;
     Matrix := upd (Matrix g) p (pose p a) |}.

(** The placement matrix of [p] is the one its keys compute from its
    angle. *)
Definition consistent (g : Globals) (p : Part) : Prop :=
  Matrix g p = pose p (Angle g p).

(** The states the page can be in: the loaded script, then key presses. *)
Definition reachable (g : Globals) : Prop :=
  exists chs, g = handleKeys chs initial.

(** The key of part [p] for the step [d]. *)
Definition key_of (p : Part) (d : Step) : option string :=
  match keys p with
  | Some (inc, dec) =>
      Some match d with Plus15 => inc | Minus15 => dec end
  | None => None
  end.

(** [n] presses of the same key. *)
Fixpoint press (n : nat) (ch : option string) (g : Globals) : Globals :=
  match n with
  | O => g
  | S n' => press n' ch (handleKeyPress ch g)
  end.

(** *** renderCube and draw *)

(** What the WebGL context answers to the two [getAttribLocation] calls of
    [renderCube]. *)
Record GL : Type := mkGL {
  positionIndex : Z;
  normalIndex : Z
}.

(** One [gl.drawArrays(gl.TRIANGLES, 0, 36)] call, with the model and view
    matrices uploaded before it (the normal matrix is computed from these
    two). *)
Record DrawCall : Type := mkDrawCall {
  model : Matrix4;
  viewElements : list R
}.

(** The calls made on the stack [s] of [draw].  A push is labelled with
    the part it is made for, that is the part whose comment introduces it
    and whose cube is rendered next, and with the matrix that was on top
    of the stack when it was made ([None] on an empty stack). *)
Inductive StackCall : Type :=
| Pushed (p : Part) (under : option Matrix4) (m : Matrix4)
| Popped (returned : option Matrix4).

Definition is_pushed (c : StackCall) : bool :=
  match c with Pushed _ _ _ => true | Popped _ => false end.

Definition is_popped (c : StackCall) : bool :=
  match c with Pushed _ _ _ => false | Popped _ => true end.

(** The element on top of a stack, without any logging. *)
Definition peek (st : Stack.Stack Matrix4) : option Matrix4 :=
  if Stack.isEmpty st then None
  else JSArray.get (Stack.elements st) (Stack.t st - 1).

(** What one run of [draw] reads and writes besides the placement
    matrices: its local stack [s], [view.elements], the rotator, the
    console, the issued draw calls, and the record of its stack calls. *)
Record Frame : Type := mkFrame {
  s : Stack.Stack Matrix4;
  view : list R;
  rotator : SimpleRotator.Rotator;
  console : list LogLine;
  drawn : list DrawCall;
  calls : list StackCall
}.

(** Statements of [draw] and [renderCube]: a result and the frame
    afterwards. *)
Definition M (A : Type) : Type := Frame -> A * Frame.

Definition ret (A : Type) (a : A) : M A := fun f => (a, f).

Definition bind (A B : Type) (m : M A) (k : A -> M B) : M B :=
  fun f => let (a, f') := m f in k a f'.

Notation "x <- m ;; k" := (bind m (fun x => k))
  (at level 61, m at next level, right associativity).
Notation "m ;; k" := (bind m (fun _ => k))
  (at level 61, right associativity).

Definition log (l : LogLine) : M unit :=
  fun f => (tt, mkFrame (s f) (view f) (rotator f) (console f ++ [l])
                        (drawn f) (calls f)).

Fixpoint log_all (ls : list LogLine) : M unit :=
  match ls with
  | [] => ret tt
  | l :: ls' => log l ;; log_all ls'
  end.

(** [var s = new Stack()]; no call has been made on the new stack yet. *)
Definition s_new : M unit :=
  fun f => (tt, mkFrame Stack.new (view f) (rotator f) (console f)
                        (drawn f) []).

(** [s.push(m)] *)
Definition s_push (p : Part) (m : Matrix4) : M unit :=
  fun f => (tt, mkFrame (Stack.push m (s f)) (view f) (rotator f)
                        (console f) (drawn f)
                        (calls f ++ [Pushed p (peek (s f)) m])).

(** [s.top()] *)
Definition s_top : M (option Matrix4) :=
  fun f => let (v, ls) := Stack.top (s f) in (log_all ls ;; ret v) f.

(** [s.pop()] *)
Definition s_pop : M (option Matrix4) :=
  fun f =>
    match Stack.pop (s f) with
    | (v, s', ls) =>
        (log_all ls ;; ret v)
          (mkFrame s' (view f) (rotator f) (console f) (drawn f)
                   (calls f ++ [Popped v]))
    end.

(** [s.isEmpty()] *)
Definition s_isEmpty : M bool :=
  fun f => (Stack.isEmpty (s f), f).

(** [view.elements = rotator.getViewMatrix()] *)
Definition set_view : M unit :=
  fun f => (tt, mkFrame (s f) (SimpleRotator.getViewMatrix (rotator f))
                        (rotator f) (console f) (drawn f) (calls f)).

(** [rotator.setViewDistance(d)] *)
Definition rotator_setViewDistance (d : R) : M unit :=
  fun f => (tt, mkFrame (s f) (view f)
                        (SimpleRotator.setViewDistance d (rotator f))
                        (console f) (drawn f) (calls f)).

(** The uploads of the uniforms followed by [gl.drawArrays]. *)
Definition drawArrays (current : Matrix4) : M unit :=
  fun f => (tt, mkFrame (s f) (view f) (rotator f) (console f)
                        (drawn f ++ [mkDrawCall current (view f)])
                        (calls f)).

(** [renderCube(s, matrixLocal)] *)
Definition renderCube (gl : GL) (matrixLocal : Matrix4) : M unit :=
  if (positionIndex gl <? 0)%Z then
    log [LStr "Failed to get the storage location of a_Position"]
  else if (normalIndex gl <? 0)%Z then
    log [LStr "Failed to get the storage location of a_Normal"]
  else
    tp <- s_top ;;
    drawArrays (multiply (create tp) matrixLocal).

Definition mismatch_warning : LogLine :=
  [LStr "Warning: pops do not match pushes"].

(** [draw()], statement by statement; [gl.clear] changes nothing that is
    modelled. *)
Definition draw (gl : GL) (g : Globals) : M unit :=
  set_view ;;
  rotator_setViewDistance 45 ;;
  (* set up the matrix stack *)
  s_new ;;
  s_push torso (Matrix g torso) ;;
  renderCube gl (MatrixLocal torso) ;;
  (* left shoulder relative to torso *)
  tp <- s_top ;;
  s_push shoulderLeft (multiply (create tp) (Matrix g shoulderLeft)) ;;
  renderCube gl (MatrixLocal shoulderLeft) ;;
  (* left arm relative to shoulder *)
  tp <- s_top ;;
  s_push armLeft (multiply (create tp) (Matrix g armLeft)) ;;
  renderCube gl (MatrixLocal armLeft) ;;
  (* left hand relative to arm *)
  tp <- s_top ;;
  s_push handLeft (multiply (create tp) (Matrix g handLeft)) ;;
  renderCube gl (MatrixLocal handLeft) ;;
  s_pop ;;
  s_pop ;;
  s_pop ;;
  (* right shoulder relative to torso *)
  tp <- s_top ;;
  s_push shoulderRight (multiply (create tp) (Matrix g shoulderRight)) ;;
  renderCube gl (MatrixLocal shoulderRight) ;;
  (* right arm relative to shoulder *)
  tp <- s_top ;;
  s_push armRight (multiply (create tp) (Matrix g armRight)) ;;
  renderCube gl (MatrixLocal armRight) ;;
  (* right hand relative to arm *)
  tp <- s_top ;;
  s_push handRight (multiply (create tp) (Matrix g handRight)) ;;
  renderCube gl (MatrixLocal handRight) ;;
  s_pop ;;
  s_pop ;;
  s_pop ;;
  (* head relative to torso *)
  tp <- s_top ;;
  s_push head (multiply (create tp) (Matrix g head)) ;;
  renderCube gl (MatrixLocal head) ;;
  s_pop ;;
  (* left leg relative to torso *)
  tp <- s_top ;;
  s_push legLeft (multiply (create tp) (Matrix g legLeft)) ;;
  renderCube gl (MatrixLocal legLeft) ;;
  (* left ankle relative to leg *)
  tp <- s_top ;;
  s_push ankleLeft (multiply (create tp) (Matrix g ankleRight)) ;;
  renderCube gl (MatrixLocal ankleLeft) ;;
  (* left foot relative to leg *)
  tp <- s_top ;;
  s_push footLeft (multiply (create tp) (Matrix g footLeft)) ;;
  renderCube gl (MatrixLocal footLeft) ;;
  s_pop ;;
  s_pop ;;
  s_pop ;;
  (* right leg relative to torso *)
  tp <- s_top ;;
  s_push legRight (multiply (create tp) (Matrix g legRight)) ;;
  renderCube gl (MatrixLocal legRight) ;;
  (* right ankle relative to leg *)
  tp <- s_top ;;
  s_push ankleRight (multiply (create tp) (Matrix g ankleLeft)) ;;
  renderCube gl (MatrixLocal ankleRight) ;;
  (* right foot relative to leg *)
  tp <- s_top ;;
  s_push footRight (multiply (create tp) (Matrix g footRight)) ;;
  renderCube gl (MatrixLocal footRight) ;;
  s_pop ;;
  s_pop ;;
  s_pop ;;
  s_pop ;;
  empty <- s_isEmpty ;;
  if negb empty then log mismatch_warning else ret tt.

(** The frame [draw] leaves behind. *)
Definition after_draw (gl : GL) (g : Globals) (f : Frame) : Frame :=
  snd (draw gl g f).

(** The stack calls of a frame as calls of the [Stack] class. *)
Definition as_call (c : StackCall) : Stack.Call Matrix4 :=
  match c with
  | Pushed _ _ m => Stack.CPush m
  | Popped _ => Stack.CPop
  end.

(** The parent of each part in the figure: torso -> shoulders -> arms ->
    hands, torso -> head, torso -> legs -> ankles -> feet. *)
Definition parent (p : Part) : option Part :=
  match p with
  | torso => None
  | shoulderLeft => Some torso
  | shoulderRight => Some torso
  | armLeft => Some shoulderLeft
  | armRight => Some shoulderRight
  | handLeft => Some armLeft
  | handRight => Some armRight
  | head => Some torso
  | legLeft => Some torso
  | legRight => Some torso
  | ankleLeft => Some legLeft
  | ankleRight => Some legRight
  | footLeft => Some ankleLeft
  | footRight => Some ankleRight
  end.

(** The first push made for part [p] during the calls [cs], if any: the
    matrix that was on top of the stack, and the matrix pushed. *)
Fixpoint pushed_for (p : Part) (cs : list StackCall)
  : option (option Matrix4 * Matrix4) :=
  match cs with
  | [] => None
  | Pushed q u m :: cs' =>
      if Part_eq_dec q p then Some (u, m) else pushed_for p cs'
  | Popped _ :: cs' => pushed_for p cs'
  end.

(** The part whose placement matrix [draw] multiplies into the matrix it
    pushes for part [p]. *)
Definition placement_used (p : Part) : Part :=
  match p with
  | ankleLeft => ankleRight
  | ankleRight => ankleLeft
  | q => q
  end.

(** The figure as a tree. *)
#[warnings="-register-all"]
Inductive Tree : Type :=
| Node (p : Part) (children : list Tree).

Definition figure : Tree :=
  Node torso
    [ Node shoulderLeft [Node armLeft [Node handLeft []]];
      Node shoulderRight [Node armRight [Node handRight []]];
      Node head [];
      Node legLeft [Node ankleLeft [Node footLeft []]];
      Node legRight [Node ankleRight [Node footRight []]] ].

(** The stack calls of a depth-first traversal of a tree in which the
    matrix pushed for a part is the matrix on top of the stack times the
    placement matrix of part [placement p] (the root pushes its placement
    matrix itself), and every subtree ends with the pop of what was pushed
    for its root. *)
Fixpoint traversal (placement : Part -> Part) (g : Globals)
    (top : option Matrix4) (tr : Tree) : list StackCall :=
  match tr with
  | Node p children =>
      let m :=
        match top with
        | None => Matrix g (placement p)
        | Some tp => multiply tp (Matrix g (placement p))
        end in
      Pushed p top m
      :: flat_map (traversal placement g (Some m)) children
      ++ [Popped (Some m)]
  end.

(** The traversal of the specification: every part is placed with its
    own placement matrix. *)
Definition spec_traversal (g : Globals) : list StackCall :=
  traversal (fun p => p) g None figure.

(** The lines [draw] prints: those of the [renderCube] calls that fail to
    find an attribute, one per part. *)
Definition draw_output (gl : GL) : list LogLine :=
  if (positionIndex gl <? 0)%Z then
    repeat [LStr "Failed to get the storage location of a_Position"] 14
  else if (normalIndex gl <? 0)%Z then
    repeat [LStr "Failed to get the storage location of a_Normal"] 14
  else [].

(** The order in which [draw] renders the parts. *)
Definition draw_order : list Part :=
  [torso; shoulderLeft; armLeft; handLeft; shoulderRight; armRight;
   handRight; head; legLeft; ankleLeft; footLeft; legRight; ankleRight;
   footRight].

(** The matrix [draw] pushes for part [p]. *)
Definition pushed_matrix (g : Globals) (p : Part) : Matrix4 :=
  match pushed_for p (traversal placement_used g None figure) with
  | Some (_, m) => m
  | None => identity
  end.

(** The frame before the first run of [draw] on a canvas of 600 by 400. *)
Definition first_frame : Frame :=
  mkFrame Stack.new []
    (SimpleRotator.new (SimpleRotator.mkCanvas 600 400) None None None)
    [] [] [].

End Hierarchy.

(** ** The 2D demo (CircleNPolyIntersec.js) *)
Module CircleNPolyIntersec.

(** A point: an array of two numbers. *)
Record vec2 : Type := V2 { px : R; py : R }.

(** Modelled from the spec: [vec2.dist(a, b)] of the gl-matrix library,
    which the page loads and which is missing; the distance between the
    points [a] and [b]. *)
Definition dist (a b : vec2) : R :=
  let x := px b - px a in
  let y := py b - py a in
  sqrt (x * x + y * y).

Definition circleCircleIntersect (center1 : vec2) (radius1 : R)
    (center2 : vec2) (radius2 : R) : bool :=
  if Num.gtb (dist center1 center2) (radius1 + radius2) then false
  else true.

(** The circles of the demo. *)
Record Circle : Type := mkCircle { center : vec2; radius : R }.

Definition circs : list Circle :=
  [ mkCircle (V2 100 100) 50;
    mkCircle (V2 250 100) 50;
    mkCircle (V2 400 100) 50 ].

(** The Euclidean distance of two points of the plane. *)
Definition euclidean (p q : vec2) : R :=
  sqrt (Rsqr (px p - px q) + Rsqr (py p - py q)).

(** *** Vectors, orientation and segments *)

(** Modelled from the spec: [vec2.add(out, a, b)], [vec2.sub(out, a, b)]
    and [vec2.len(a)] of the gl-matrix library, which is missing: sum,
    difference and Euclidean length; the value stored in [out] is
    returned. *)
Definition add (a b : vec2) : vec2 := V2 (px a + px b) (py a + py b).

Definition sub (a b : vec2) : vec2 := V2 (px a - px b) (py a - py b).

Definition len (a : vec2) : R := sqrt (px a * px a + py a * py a).

(** [Math.sign] *)
Definition sign (x : R) : R :=
  if Num.gtb x 0 then 1 else if Num.ltb x 0 then -1 else 0.

(** Modelled from the spec: [mat3.determinant(a)] of the gl-matrix
    library, which is missing, applied to the nine numbers of [a]. *)
Definition determinant (a00 a01 a02 a10 a11 a12 a20 a21 a22 : R) : R :=
  a00 * (a22 * a11 - a12 * a21)
  + a01 * (- a22 * a10 + a12 * a20)
  + a02 * (a21 * a10 - a11 * a20).

(** [glvec2.orient(a, b, c)] *)
Definition orient (a b c : vec2) : R :=
  sign (determinant 1 (px a) (py a) 1 (px b) (py b) 1 (px c) (py c)).

(** [glvec2.segmentsIntersect(a, b, c, d)] *)
Definition segmentsIntersect (a b c d : vec2) : bool :=
  negb (Num.eqb (orient a b c) (orient a b d))
  && negb (Num.eqb (orient c d a) (orient c d b)).

(** [glvec2.lineIntersection(out, p1, p2, p3, p4)], returning [out]. *)
Definition lineIntersection (p1 p2 p3 p4 : vec2) : vec2 :=
  let x1 := px p1 in let y1 := py p1 in
  let x2 := px p2 in let y2 := py p2 in
  let x3 := px p3 in let y3 := py p3 in
  let x4 := px p4 in let y4 := py p4 in
  let D := (x1 - x2) * (y3 - y4) - (y1 - y2) * (x3 - x4) in
  let a := x1 * y2 - y1 * x2 in
  let b := x3 * y4 - y3 * x4 in
  V2 ((a * (x3 - x4) - (x1 - x2) * b) / D)
     ((a * (y3 - y4) - (y1 - y2) * b) / D).

(** The denominator of [lineIntersection]. *)
Definition lineDenominator (p1 p2 p3 p4 : vec2) : R :=
  (px p1 - px p2) * (py p3 - py p4) - (py p1 - py p2) * (px p3 - px p4).

(** The cross product of [b - a] and [c - a]: twice the signed area of
    the triangle [a b c]. *)
Definition cross (a b c : vec2) : R :=
  (px b - px a) * (py c - py a) - (py b - py a) * (px c - px a).

(** The point [a + t (b - a)] of the line through [a] and [b]. *)
Definition along (a b : vec2) (t : R) : vec2 :=
  V2 (px a + t * (px b - px a)) (py a + t * (py b - py a)).

(** *** The shapes *)

(** [midPoints(center, width, height)] *)
Definition midPoints (center : vec2) (width height : R) : list vec2 :=
  [ add center (V2 width 0);
    add center (V2 0 height);
    add center (V2 (- width) 0);
    add center (V2 0 (- height)) ].

(** A triangle of the demo. *)
Record Isosceles : Type := mkIsosceles {
  basePoint : vec2;
  oppositeVertex : vec2
}.

(** [isosceles({ basePoint, oppositeVertex })] *)
Definition isosceles (tr : Isosceles) : list vec2 :=
  let u := sub (basePoint tr) (oppositeVertex tr) in
  let v := V2 (- py u) (px u) in
  let w := V2 (py u) (- px u) in
  [ oppositeVertex tr; add (basePoint tr) v; add (basePoint tr) w ].

(** A rectangle of the demo: its centre and the four points [makePts]
    stores in [rect.midPoints] (read with [nth]; the array always has
    four elements). *)
Record Rect : Type := mkRect {
  rectCenter : vec2;
  rectMidPoints : list vec2
}.

(** [rectangle(rect)] *)
Definition rectangle (rect : Rect) : list vec2 :=
  let m := fun k => nth k (rectMidPoints rect) (V2 0 0) in
  let delta := sub (m 1%nat) (rectCenter rect) in
  [ add (m 0%nat) delta; sub (m 0%nat) delta;
    sub (m 2%nat) delta; add (m 2%nat) delta ].

(** The part of [makePts] for a rectangle given by centre, width and
    height. *)
Definition makeRect (center : vec2) (width height : R) : Rect :=
  mkRect center (midPoints center width height).

(** The part of [makePts] for a circle: its control point. *)
Definition makeControl (c : Circle) : vec2 :=
  V2 (px (center c)) (py (center c) - radius c).

(** The part of [updateInfo] for a circle: the radius computed from the
    control point. *)
Definition updateRadius (center control : vec2) : R :=
  len (sub control center).

(** The [onmousemove] handler installed for anchor [i] of a circle: the
    centre and the control point after the mouse has moved by [delta]. *)
Definition dragCircle (i : nat) (delta : vec2) (center control : vec2)
  : vec2 * vec2 :=
  match i with
  | O => (add center delta, add control delta)
  | _ => (center, add control delta)
  end.

(** *** A circle against a convex polygon *)
Section Util2d.

(** [util2d.pointInConvexPoly] and [util2d.distToSegment] of 2dutils.js,
    which the script imports and which is not among the sources. *)
Variable pointInConvexPoly : vec2 -> list vec2 -> bool.
Variable distToSegment : vec2 -> vec2 -> vec2 -> R.

(** The test of the loop body for the edge that starts at vertex [i]; the
    two indices are below [poly.length]. *)
Definition edge_within (center : vec2) (radius : R) (poly : list vec2)
    (i : nat) : bool :=
  Num.leb
    (distToSegment center
       (nth i poly (V2 0 0))
       (nth ((i + 1) mod List.length poly) poly (V2 0 0)))
    radius.

(** [convexPolyCircleIntersect(center, radius, poly)] *)
Definition convexPolyCircleIntersect (center : vec2) (radius : R)
    (poly : list vec2) : bool :=
  if pointInConvexPoly center poly then true
  else existsb (edge_within center radius poly)
               (seq 0 (List.length poly)).

End Util2d.

End CircleNPolyIntersec.

(** ** The rotating square (the two scripts that follow the 2D demo) *)
Module Square.

(** [vertices], a [Float32Array] of twelve numbers. *)
Definition vertices : list R :=
  [ -0.5; -0.5; 0.5; -0.5; 0.5; 0.5; -0.5; -0.5; 0.5; 0.5; -0.5; 0.5 ].

(** [numPoints = vertices.length / 2] *)
Definition numPoints : Z := (Z.of_nat (List.length vertices) / 2)%Z.

(** The global variables [w] and [h], the size of the canvas. *)
Record Viewport : Type := mkViewport { w : R; h : R }.

(** [mapToViewport(x, y, n = 5)]; [n] is [None] when the argument is not
    given. *)
Definition mapToViewport (vp : Viewport) (x y : R) (n : option R) : R * R :=
  let n := match n with Some v => v | None => 5 end in
  (((x + n / 2) * w vp) / n, ((- y + n / 2) * h vp) / n).

(** [vertices[j]] for an integer [j]: [undefined] outside the array. *)
Definition element (j : Z) : option R :=
  if (j <? 0)%Z then None else nth_error vertices (Z.to_nat j).

(** [getVertex(i)] for an integer [i]; [%] is the remainder that has the
    sign of [i]. *)
Definition getVertex (i : Z) : option R * option R :=
  let j := (Z.rem i numPoints * 2)%Z in
  (element j, element (j + 1)).

End Square.

(** ** The unit cube of the robot ([makeCube] of Hierarchy.js) *)
Module Cube.

Definition rawVertices : list R :=
  [ -0.5; -0.5; 0.5;
    0.5; -0.5; 0.5;
    0.5; 0.5; 0.5;
    -0.5; 0.5; 0.5;
    -0.5; -0.5; -0.5;
    0.5; -0.5; -0.5;
    0.5; 0.5; -0.5;
    -0.5; 0.5; -0.5 ].

Definition rawColors : list R :=
  [ 1.0; 0.0; 0.0; 1.0;
    0.0; 1.0; 0.0; 1.0;
    0.0; 0.0; 1.0; 1.0;
    1.0; 1.0; 0.0; 1.0;
    1.0; 0.0; 1.0; 1.0;
    0.0; 1.0; 1.0; 1.0 ].

Definition rawNormals : list R :=
  [ 0; 0; 1;
    1; 0; 0;
    0; 0; -1;
    -1; 0; 0;
    0; 1; 0;
    0; -1; 0 ].

Definition indices : list nat :=
  [ 0; 1; 2; 0; 2; 3;
    1; 5; 6; 1; 6; 2;
    5; 4; 7; 5; 7; 6;
    4; 0; 3; 4; 3; 7;
    3; 2; 6; 3; 6; 7;
    4; 5; 1; 4; 1; 0 ]%nat.

(** What the body of the outer loop pushes for vertex [i]: three
    coordinates, four colour components, three normal components.  A read
    outside an array gives [undefined], which is [None]. *)
Definition pushVertex (i : nat) : list (option R) :=
  match nth_error indices i with
  | Some index =>
      map (fun j => nth_error rawVertices (3 * index + j)) (seq 0 3)
  | None => repeat None 3
  end.

Definition pushColor (i : nat) : list (option R) :=
  let face := (i / 6)%nat in
  map (fun j => nth_error rawColors (4 * face + j)) (seq 0 4).

Definition pushNormal (i : nat) : list (option R) :=
  let face := (i / 6)%nat in
  map (fun j => nth_error rawNormals (3 * face + j)) (seq 0 3).

(** The object [makeCube] returns. *)
Record Mesh : Type := mkMesh {
  numVertices : nat;
  vertices : list (option R);
  colors : list (option R);
  normals : list (option R)
}.

Definition makeCube : Mesh :=
  {| numVertices := 36;
     vertices := flat_map pushVertex (seq 0 36);
     colors := flat_map pushColor (seq 0 36);
     normals := flat_map pushNormal (seq 0 36) |}.

(** The three numbers of vertex [i] in an array of triples. *)
Definition triple (a : list (option R)) (i : nat) : option (R * R * R) :=
  match nth_error a (3 * i), nth_error a (3 * i + 1),
        nth_error a (3 * i + 2) with
  | Some (Some x), Some (Some y), Some (Some z) => Some (x, y, z)
  | _, _, _ => None
  end.

Definition dot3 (u v : R * R * R) : R :=
  let '(x, y, z) := u in let '(x', y', z') := v in
  x * x' + y * y' + z * z'.

Definition minus3 (u v : R * R * R) : R * R * R :=
  let '(x, y, z) := u in let '(x', y', z') := v in
  (x - x', y - y', z - z').

Definition cross3 (u v : R * R * R) : R * R * R :=
  let '(x, y, z) := u in let '(x', y', z') := v in
  (y * z' - z * y', z * x' - x * z', x * y' - y * x').

End Cube.

(** * Properties *)

(** ** Arrays *)
Section ArrayFacts.
Variable V : Type.

Lemma get_set_same (a : JSArray.array V) i v :
  JSArray.get (JSArray.set a i v) i = v.
Proof. unfold JSArray.get, JSArray.set. now rewrite Z.eqb_refl. Qed.

Lemma get_set_other (a : JSArray.array V) i j v :
  i <> j -> JSArray.get (JSArray.set a i v) j = JSArray.get a j.
Proof.
  intro H. unfold JSArray.get, JSArray.set.
  destruct (Z.eqb_spec j i); [congruence | reflexivity].
Qed.

End ArrayFacts.

(** ** The stack *)
Section StackFacts.
Import Stack.
Variable V : Type.
Implicit Types (s : Stack V) (cs : list (Call V)).

Lemma t_push m s : t (push m s) = (t s + 1)%Z.
Proof. reflexivity. Qed.

Lemma pop_empty s : (t s <= 0)%Z -> pop s = (None, s, [underflow_warning]).
Proof.
  intro H. unfold pop.
  destruct (Z.leb_spec (t s) 0); [reflexivity | lia].
Qed.

Lemma top_empty s :
  (t s <= 0)%Z ->
  top s = (None, [[LStr "top = "; LNum (t s)]; underflow_warning]).
Proof.
  intro H. unfold top.
  destruct (Z.leb_spec (t s) 0); [reflexivity | lia].
Qed.

Lemma t_pop_nonempty s : (0 < t s)%Z -> t (snd (fst (pop s))) = (t s - 1)%Z.
Proof.
  intro H. unfold pop.
  destruct (Z.leb_spec (t s) 0); [lia | reflexivity].
Qed.

Lemma t_pop_empty s : (t s <= 0)%Z -> t (snd (fst (pop s))) = t s.
Proof. intro H. now rewrite pop_empty. Qed.

(** The counter never goes below zero. *)
Lemma reachable_nonneg s : reachable s -> (0 <= t s)%Z.
Proof.
  induction 1 as [| m s _ IH | s _ IH].
  - simpl. lia.
  - rewrite t_push. lia.
  - destruct (Z.leb_spec (t s) 0).
    + rewrite t_pop_empty by assumption. assumption.
    + rewrite t_pop_nonempty by assumption. lia.
Qed.

Lemma reachable_run cs : forall s, reachable s -> reachable (run cs s).
Proof.
  induction cs as [| c cs IH]; intros s H; simpl; [assumption |].
  apply IH. destruct c; simpl; now constructor.
Qed.

(** [pop] clears the slot it returns, so nothing is stored at or above the
    counter. *)
Lemma reachable_above_clear s : reachable s -> above_clear s.
Proof.
  induction 1 as [| m s _ IH | s _ IH]; intros k Hk.
  - reflexivity.
  - simpl in *. rewrite get_set_other by lia. apply IH. lia.
  - unfold pop in *. destruct (Z.leb_spec (t s) 0); simpl in *.
    + now apply IH.
    + destruct (Z.eq_dec k (t s - 1)) as [-> | Hne].
      * apply get_set_same.
      * rewrite get_set_other by congruence. apply IH. lia.
Qed.

Lemma pushes_cons c cs :
  pushes (c :: cs) = ((if is_push c then 1 else 0) + pushes cs)%Z.
Proof.
  unfold pushes. cbn [filter]. destruct (is_push c); cbn [List.length]; lia.
Qed.

Lemma pops_cons c cs :
  pops (c :: cs) = ((if is_pop c then 1 else 0) + pops cs)%Z.
Proof.
  unfold pops. cbn [filter]. destruct (is_pop c); cbn [List.length]; lia.
Qed.

(** The depth after any sequence of calls: every push adds one, every pop
    removes one unless it finds the stack empty. *)
Lemma depth_run cs : forall s,
  (0 <= t s)%Z ->
  t (run cs s) = (t s + pushes cs - pops cs + underflows (t s) cs)%Z.
Proof.
  induction cs as [| c cs IH]; intros s Hs.
  - unfold pushes, pops. simpl. lia.
  - rewrite pushes_cons, pops_cons.
    destruct c as [m |]; cbn [run step is_push is_pop underflows].
    + rewrite IH by (rewrite t_push; lia). rewrite t_push. lia.
    + destruct (Z.leb_spec (t s) 0).
      * rewrite IH by (rewrite t_pop_empty; lia).
        rewrite t_pop_empty by assumption. lia.
      * rewrite IH by (rewrite t_pop_nonempty; lia).
        rewrite t_pop_nonempty by assumption. lia.
Qed.

Lemma underflows_nonneg cs : forall d, (0 <= underflows d cs)%Z.
Proof.
  induction cs as [| c cs IH]; intro d; cbn [underflows]; [lia |].
  destruct c; [apply IH |].
  destruct (d <=? 0)%Z; [specialize (IH d) | apply IH]. lia.
Qed.

Lemma no_underflow_underflows cs : forall d,
  no_underflow d cs = true -> underflows d cs = 0%Z.
Proof.
  induction cs as [| c cs IH]; intros d H;
    cbn [underflows no_underflow] in *; [reflexivity |].
  destruct c; [now apply IH |].
  apply andb_true_iff in H as [Hd H]. apply Z.ltb_lt in Hd.
  destruct (Z.leb_spec d 0); [lia | now apply IH].
Qed.

Lemma isEmpty_iff_nonpos s : isEmpty s = true <-> (t s <= 0)%Z.
Proof. unfold isEmpty. apply Z.leb_le. Qed.

(** C2, as stated, fails: a [pop] that finds the stack empty changes
    nothing, so one pop followed by one push on a new stack leaves depth 1,
    not 0. *)
Lemma C2_pop_then_push_counterexample :
  let cs := [CPop; CPush tt] in
  pushes cs = 1%Z /\ pops cs = 1%Z /\
  depth (@new unit) = 0%Z /\ depth (run cs new) = 1%Z /\
  ~ (forall (s : Stack unit) (l : list (Call unit)),
        pushes l = pops l -> depth (run l s) = depth s).
Proof.
  cbv zeta. repeat split; try reflexivity.
  intro H. specialize (H new [CPop; CPush tt] eq_refl).
  vm_compute in H. discriminate H.
Qed.

(** C2 (amended): from any reachable stack, a sequence of calls with as
    many pushes as pops, none of whose pops finds the stack empty, ends at
    the depth it started from; whatever the pops find, the final depth is
    the starting depth plus the number of pops that found the stack empty;
    and in every reachable state [isEmpty()] is true exactly when the depth
    is zero. *)
Theorem C2_balanced_calls_restore_depth :
  (forall s cs,
      reachable s -> pushes cs = pops cs ->
      depth (run cs s) = (depth s + underflows (depth s) cs)%Z /\
      (no_underflow (depth s) cs = true -> depth (run cs s) = depth s)) /\
  (forall s, reachable s -> (isEmpty s = true <-> depth s = 0%Z)).
Proof.
  split.
  - intros s cs Hr Heq. unfold depth.
    pose proof (reachable_nonneg Hr) as H0.
    rewrite (depth_run cs s H0). split; [lia |].
    intro Hn. rewrite (no_underflow_underflows _ _ Hn). lia.
  - intros s Hr. unfold depth.
    pose proof (reachable_nonneg Hr) as H0.
    rewrite isEmpty_iff_nonpos. lia.
Qed.

(** C4: on a stack of depth zero, [top()] and [pop()] log the underflow
    warning, return [undefined] and leave the stack as it is; both are
    total functions, nothing is thrown. *)
Theorem C4_underflow_warns_and_returns_undefined :
  forall s,
    depth s = 0%Z ->
    top s = (None, [[LStr "top = "; LNum 0]; underflow_warning]) /\
    pop s = (None, s, [underflow_warning]).
Proof.
  intros s H. unfold depth in H. split.
  - rewrite top_empty by lia. now rewrite H.
  - apply pop_empty. lia.
Qed.

End StackFacts.

(** A stack of numbers holding 7, then push, pop, push, pop. *)
Lemma C2_balanced_calls_restore_depth_witness :
  Stack.depth
    (Stack.run [Stack.CPush 1%nat; Stack.CPop; Stack.CPush 2%nat; Stack.CPop]
               (Stack.push 7%nat Stack.new))
  = Stack.depth (Stack.push 7%nat Stack.new) /\
  (Stack.isEmpty (@Stack.new nat) = true <-> Stack.depth (@Stack.new nat) = 0%Z).
Proof.
  split.
  - apply (proj1 (@C2_balanced_calls_restore_depth nat)).
    + apply Stack.reach_push, Stack.reach_new.
    + reflexivity.
    + reflexivity.
  - apply (proj2 (@C2_balanced_calls_restore_depth nat)), Stack.reach_new.
Defined.

(** The new stack, and a stack emptied again by a pop. *)
Lemma C4_underflow_warns_and_returns_undefined_witness :
  Stack.pop (@Stack.new nat) = (None, Stack.new, [underflow_warning]) /\
  Stack.top (@Stack.new nat)
  = (None, [[LStr "top = "; LNum 0]; underflow_warning]).
Proof.
  split.
  - apply (@C4_underflow_warns_and_returns_undefined nat Stack.new).
    reflexivity.
  - apply (@C4_underflow_warns_and_returns_undefined nat Stack.new).
    reflexivity.
Defined.

(** ** Numbers and matrices *)
Section MatrixFacts.
Import Matrix4.

Lemma eqb_same x : Num.eqb x x = true.
Proof. unfold Num.eqb. destruct (Req_dec_T x x); congruence. Qed.

Lemma eqb_diff x y : x <> y -> Num.eqb x y = false.
Proof. intro H. unfold Num.eqb. destruct (Req_dec_T x y); congruence. Qed.

Lemma ltb_not x y : ~ x < y -> Num.ltb x y = false.
Proof. intro H. unfold Num.ltb. destruct (Rlt_dec x y); tauto. Qed.

Lemma gtb_true x y : x > y -> Num.gtb x y = true.
Proof. intro H. unfold Num.gtb. destruct (Rgt_dec x y); tauto. Qed.

Lemma gtb_false x y : x <= y -> Num.gtb x y = false.
Proof. intro H. unfold Num.gtb. destruct (Rgt_dec x y); [lra | reflexivity]. Qed.

Lemma setRotate_y this angle :
  setRotate this angle 0 1 0 =
  mk (cos (rad angle)) 0 (- sin (rad angle)) 0
     0 1 0 0
     (sin (rad angle)) 0 (cos (rad angle)) 0
     0 0 0 1.
Proof.
  unfold setRotate, rad.
  rewrite (eqb_same 0), (@eqb_diff 0 1), (@ltb_not 1 0) by lra.
  cbn [negb andb]. reflexivity.
Qed.

Lemma setRotate_x this angle :
  setRotate this angle 1 0 0 =
  mk 1 0 0 0
     0 (cos (rad angle)) (sin (rad angle)) 0
     0 (- sin (rad angle)) (cos (rad angle)) 0
     0 0 0 1.
Proof.
  unfold setRotate, rad.
  rewrite (eqb_same 0), (@eqb_diff 0 1), (@ltb_not 1 0) by lra.
  cbn [negb andb]. reflexivity.
Qed.

(** Two matrices are equal when their sixteen elements are. *)
Lemma mk_ext a0 a1 a2 a3 a4 a5 a6 a7 a8 a9 a10 a11 a12 a13 a14 a15
    b0 b1 b2 b3 b4 b5 b6 b7 b8 b9 b10 b11 b12 b13 b14 b15 :
  a0 = b0 -> a1 = b1 -> a2 = b2 -> a3 = b3 ->
  a4 = b4 -> a5 = b5 -> a6 = b6 -> a7 = b7 ->
  a8 = b8 -> a9 = b9 -> a10 = b10 -> a11 = b11 ->
  a12 = b12 -> a13 = b13 -> a14 = b14 -> a15 = b15 ->
  mk a0 a1 a2 a3 a4 a5 a6 a7 a8 a9 a10 a11 a12 a13 a14 a15 =
  mk b0 b1 b2 b3 b4 b5 b6 b7 b8 b9 b10 b11 b12 b13 b14 b15.
Proof. intros. subst. reflexivity. Qed.

Ltac mat_eq :=
  unfold rotate, multiply, concat, translate, setTranslate, setScale,
    create, identity;
  cbn [e0 e1 e2 e3 e4 e5 e6 e7 e8 e9 e10 e11 e12 e13 e14 e15];
  apply mk_ext; lra.

(** [setTranslate(tx, ty, tz).rotate(a, 0, 1, 0)], element by element. *)
Lemma turn_elements this tx ty tz a :
  rotate (setTranslate this tx ty tz) a 0 1 0 =
  mk (cos (rad a)) 0 (- sin (rad a)) 0
     0 1 0 0
     (sin (rad a)) 0 (cos (rad a)) 0
     tx ty tz 1.
Proof. unfold rotate. rewrite setRotate_y. mat_eq. Qed.

(** [setTranslate(tx, ty, tz).multiply(new Matrix4().setTranslate(px, py,
    pz).rotate(a, 1, 0, 0).translate(bx, by, bz))], element by element. *)
Lemma swing_elements this px py pz bx by_ bz tx ty tz a :
  multiply (setTranslate this tx ty tz)
    (translate (rotate (setTranslate (create None) px py pz) a 1 0 0)
               bx by_ bz) =
  mk 1 0 0 0
     0 (cos (rad a)) (sin (rad a)) 0
     0 (- sin (rad a)) (cos (rad a)) 0
     (tx + (px + bx))
     (ty + (py + (cos (rad a) * by_ - sin (rad a) * bz)))
     (tz + (pz + (sin (rad a) * by_ + cos (rad a) * bz)))
     1.
Proof. unfold rotate. rewrite setRotate_x. mat_eq. Qed.

Lemma rad_0 : rad 0 = 0.
Proof. unfold rad. lra. Qed.

Lemma rad_opp_0 : rad (- 0) = 0.
Proof. unfold rad. lra. Qed.

Lemma rad_15 : rad 15 = PI / 12.
Proof. unfold rad. lra. Qed.

Lemma sin_PI12_pos : 0 < sin (PI / 12).
Proof.
  pose proof PI_RGT_0. apply sin_gt_0; lra.
Qed.

End MatrixFacts.

(** ** The key handler *)
Section KeyFacts.
Import Hierarchy Matrix4.

Lemma upd_same (A : Type) (f : Part -> A) p v : upd f p v p = v.
Proof. unfold upd. destruct (Part_eq_dec p p); congruence. Qed.

Lemma upd_other (A : Type) (f : Part -> A) p q v :
  q <> p -> upd f p v q = f q.
Proof. intro H. unfold upd. destruct (Part_eq_dec q p); congruence. Qed.

(** Every case of the [switch] is one step of one part. *)
Lemma cases_bump :
  Forall (fun c => exists p d,
              key_of p d = Some (fst c) /\ forall g, snd c g = bump p d g)
         cases.
Proof.
  unfold cases.
  repeat match goal with
         | |- Forall _ [] => constructor
         | |- Forall _ ((_, turn ?p ?d _ _ _) :: _) =>
             constructor;
             [exists p, d; split; [reflexivity | intro; reflexivity] |]
         | |- Forall _ ((_, swing ?p ?d _ _ _ _ _ _ _ _ _) :: _) =>
             constructor;
             [exists p, d; split; [reflexivity | intro; reflexivity] |]
         end.
Qed.

Lemma switch_In ch cs body :
  switch ch cs = Some body -> In (ch, body) cs.
Proof.
  induction cs as [| [label b] cs IH]; simpl; [discriminate |].
  destruct (String.eqb_spec ch label) as [-> | Hne].
  - intro H. injection H as ->. now left.
  - intro H. right. now apply IH.
Qed.

Lemma switch_None ch cs :
  existsb (fun c => String.eqb ch (fst c)) cs = false ->
  switch ch cs = None.
Proof.
  induction cs as [| [label b] cs IH]; simpl; [reflexivity |].
  destruct (String.eqb ch label); simpl; [discriminate | exact IH].
Qed.

(** What a recognized key does. *)
Lemma handleKeyPress_bump ch g :
  recognized ch = true ->
  exists p d, key_of p d = Some ch /\ handleKeyPress (Some ch) g = bump p d g.
Proof.
  intro H. unfold handleKeyPress.
  destruct (switch ch cases) as [body |] eqn:E.
  - apply switch_In in E.
    pose proof (proj1 (Forall_forall _ _) cases_bump _ E) as (p & d & Hk & Hb).
    exists p, d. split; [exact Hk | apply Hb].
  - exfalso. unfold recognized in H.
    clear -H E. induction cases as [| [label b] cs IH]; simpl in *.
    + discriminate.
    + destruct (String.eqb ch label); [discriminate | auto].
Qed.

Lemma key_step p inc dec g :
  keys p = Some (inc, dec) ->
  handleKeyPress (Some inc) g = bump p Plus15 g /\
  handleKeyPress (Some dec) g = bump p Minus15 g.
Proof.
  intro H.
  destruct p; cbn [keys] in H; try discriminate H;
    injection H as <- <-; split; reflexivity.
Qed.

Lemma bump_consistent p d g : consistent (bump p d g) p.
Proof.
  unfold consistent, bump. cbn [Matrix Angle]. now rewrite !upd_same.
Qed.

Lemma bump_other p d g q :
  q <> p ->
  Matrix (bump p d g) q = Matrix g q /\ Angle (bump p d g) q = Angle g q.
Proof.
  intro H. unfold bump. cbn [Matrix Angle]. now rewrite !upd_other.
Qed.

Lemma bump_keeps_consistent p d g q :
  consistent g q -> consistent (bump p d g) q.
Proof.
  intro H. destruct (Part_eq_dec q p) as [-> | Hne].
  - apply bump_consistent.
  - unfold consistent. destruct (@bump_other p d g q Hne) as [-> ->]. exact H.
Qed.

Lemma handleKeyPress_unrecognized ch g :
  unrecognized ch = true -> handleKeyPress ch g = g.
Proof.
  destruct ch as [c |]; [| reflexivity].
  cbn [unrecognized]. intro H. apply negb_true_iff in H.
  unfold handleKeyPress. now rewrite (switch_None _ _ H).
Qed.

Lemma handleKeyPress_consistent ch g q :
  consistent g q -> consistent (handleKeyPress ch g) q.
Proof.
  intro H. destruct (unrecognized ch) eqn:E.
  - now rewrite handleKeyPress_unrecognized.
  - destruct ch as [c |]; [| discriminate E].
    cbn [unrecognized] in E. apply negb_false_iff in E.
    destruct (@handleKeyPress_bump c g E) as (p & d & _ & ->).
    now apply bump_keeps_consistent.
Qed.

Lemma handleKeys_consistent chs : forall g q,
  consistent g q -> consistent (handleKeys chs g) q.
Proof.
  induction chs as [| ch chs IH]; intros g q H; cbn [handleKeys].
  - exact H.
  - apply IH. now apply handleKeyPress_consistent.
Qed.

(** At angle zero the keys of every part but the right leg compute the
    matrix the part is declared with. *)
Lemma pose_zero p : p <> legRight -> pose p 0 = initialMatrix p.
Proof.
  intro H.
  destruct p; try (exfalso; apply H; reflexivity);
    unfold pose, turn_pose, swing_pose, initialMatrix;
    try reflexivity;
    rewrite ?turn_elements, ?swing_elements;
    rewrite ?rad_0, ?rad_opp_0, ?cos_0, ?sin_0;
    unfold setTranslate; apply mk_ext; lra.
Qed.

(** The keys of the right leg place it at [(3, -7, 0)]. *)
Lemma pose_legRight_zero : pose legRight 0 = setTranslate identity 3 (-7) 0.
Proof.
  unfold pose, swing_pose. rewrite swing_elements.
  rewrite rad_opp_0, cos_0, sin_0.
  unfold setTranslate; apply mk_ext; lra.
Qed.

Lemma initial_consistent p : p <> legRight -> consistent initial p.
Proof.
  intro H. unfold consistent, initial. cbn [Matrix Angle].
  symmetry. now apply pose_zero.
Qed.

(** In every state the page can reach, the matrix of every part but the
    right leg is the one its keys compute from its angle. *)
Lemma reachable_consistent g p :
  reachable g -> p <> legRight -> consistent g p.
Proof.
  intros [chs ->] H. apply handleKeys_consistent. now apply initial_consistent.
Qed.

Lemma step_back a : apply_step Minus15 (apply_step Plus15 a) = a.
Proof. unfold apply_step. lra. Qed.

(** Increment then decrement: the angle is back, the matrix is the one
    the keys compute from it, the other parts are untouched. *)
Lemma bump_up_down p g :
  Angle (bump p Minus15 (bump p Plus15 g)) p = Angle g p /\
  Matrix (bump p Minus15 (bump p Plus15 g)) p = pose p (Angle g p) /\
  (forall q, q <> p ->
     Matrix (bump p Minus15 (bump p Plus15 g)) q = Matrix g q).
Proof.
  unfold bump. cbn [Matrix Angle]. rewrite !upd_same, step_back.
  repeat split. intros q Hq. now rewrite !upd_other.
Qed.

(** For every part with keys whose matrix agrees with its angle, the
    increment key followed by the decrement key restores the matrix. *)
Lemma up_down_restores_consistent p inc dec g :
  keys p = Some (inc, dec) ->
  consistent g p ->
  Matrix (handleKeyPress (Some dec) (handleKeyPress (Some inc) g)) p
  = Matrix g p.
Proof.
  intros Hk Hc.
  rewrite (proj1 (@key_step p inc dec g Hk)).
  rewrite (proj2 (@key_step p inc dec (bump p Plus15 g) Hk)).
  destruct (bump_up_down p g) as (_ & -> & _). symmetry. exact Hc.
Qed.

(** In every reachable state this holds of every part but the right
    leg. *)
Lemma up_down_restores_reachable p inc dec g :
  reachable g -> p <> legRight ->
  keys p = Some (inc, dec) ->
  Matrix (handleKeyPress (Some dec) (handleKeyPress (Some inc) g)) p
  = Matrix g p.
Proof.
  intros Hr Hp Hk. apply up_down_restores_consistent; [exact Hk |].
  now apply reachable_consistent.
Qed.

(** From the loaded state, each of the other eleven parts with keys is
    back at the translation it is declared with. *)
Lemma up_down_from_initial p inc dec :
  p <> legRight ->
  keys p = Some (inc, dec) ->
  Matrix (handleKeyPress (Some dec) (handleKeyPress (Some inc) initial)) p
  = initialMatrix p.
Proof.
  intros Hp Hk.
  rewrite (@up_down_restores_reachable p inc dec initial); trivial.
  now exists [].
Qed.

(** C1 fails on the right leg: it is declared at [(2, -7, 0)], but its
    keys [f] and [F] place it at [(3, -7, 0)].  From the loaded state,
    [f] then [F] bring the angle back to 0 and leave the matrix at the
    translation by [(3, -7, 0)], one unit away from the declared one. *)
Theorem C1_right_leg_not_restored :
  let g := handleKeyPress (Some "F"%string)
             (handleKeyPress (Some "f"%string) initial) in
  keys legRight = Some ("f"%string, "F"%string) /\
  Angle g legRight = Angle initial legRight /\
  Matrix initial legRight = setTranslate identity 2 (-7) 0 /\
  Matrix g legRight = setTranslate identity 3 (-7) 0 /\
  e12 (Matrix g legRight) - e12 (Matrix initial legRight) = 1 /\
  Matrix g legRight <> Matrix initial legRight.
Proof.
  cbv zeta.
  assert (Hk : keys legRight = Some ("f"%string, "F"%string))
    by reflexivity.
  rewrite (proj1 (@key_step legRight _ _ initial Hk)).
  rewrite (proj2 (@key_step legRight _ _ (bump legRight Plus15 initial) Hk)).
  destruct (bump_up_down legRight initial) as (Ha & Hm & _).
  rewrite Ha, Hm.
  change (Angle initial legRight) with 0.
  rewrite pose_legRight_zero.
  change (Matrix initial legRight) with (setTranslate identity 2 (-7) 0).
  unfold setTranslate. cbn [e12].
  repeat split; try lra.
  intro H. apply (f_equal e12) in H. cbn [e12] in H. lra.
Qed.

(** C6: pressing [t] once in the loaded state brings the torso angle to
    15 and the torso matrix to [setTranslate(0, 0, 0).rotate(15, 0, 1, 0)],
    the product of the translation by [(0, 0, 0)] and the rotation by 15
    degrees about the y axis, whose elements are given. *)
Theorem C6_t_rotates_torso_by_15 :
  let g := handleKeyPress (Some "t"%string) initial in
  Angle g torso = 15 /\
  Matrix g torso = rotate (setTranslate identity 0 0 0) 15 0 1 0 /\
  Matrix g torso
  = multiply (setTranslate identity 0 0 0) (setRotate identity 15 0 1 0) /\
  Matrix g torso
  = mk (cos (PI / 12)) 0 (- sin (PI / 12)) 0
       0 1 0 0
       (sin (PI / 12)) 0 (cos (PI / 12)) 0
       0 0 0 1.
Proof.
  cbv zeta.
  assert (Hk : keys torso = Some ("t"%string, "T"%string)) by reflexivity.
  rewrite (proj1 (@key_step torso _ _ initial Hk)).
  unfold bump. cbn [Matrix Angle]. rewrite !upd_same.
  change (Angle initial torso) with 0.
  assert (E : apply_step Plus15 0 = 15) by (unfold apply_step; lra).
  rewrite E. unfold pose, turn_pose.
  repeat split.
  rewrite turn_elements, rad_15. reflexivity.
Qed.

(** C9: a key press whose character is no body-part key ([null]
    included) leaves the global variables as they are: every angle and
    every placement matrix is unchanged. *)
Theorem C9_unrecognized_key_changes_nothing :
  forall ch g,
    unrecognized ch = true ->
    handleKeyPress ch g = g /\
    forall p,
      Angle (handleKeyPress ch g) p = Angle g p /\
      Matrix (handleKeyPress ch g) p = Matrix g p.
Proof.
  intros ch g H. rewrite (handleKeyPress_unrecognized _ _ H).
  split; [reflexivity | intro p; split; reflexivity].
Qed.

End KeyFacts.

(** The body-part keys are these twenty-four characters. *)
Lemma key_labels :
  map fst Hierarchy.cases =
  ["t"; "T"; "s"; "S"; "a"; "A"; "e"; "E"; "h"; "H"; "Q"; "q";
   "l"; "L"; "d"; "D"; "f"; "F"; "g"; "G"; "j"; "J"; "k"; "K"]%string.
Proof. reflexivity. Qed.

(** The key [x] and the special keys, in the state after one [t]. *)
Lemma C9_unrecognized_key_changes_nothing_witness :
  let g := Hierarchy.handleKeyPress (Some "t"%string) Hierarchy.initial in
  Hierarchy.handleKeyPress (Some "x"%string) g = g /\
  Hierarchy.handleKeyPress None g = g.
Proof.
  cbv zeta. split.
  - apply (C9_unrecognized_key_changes_nothing (Some "x"%string)).
    reflexivity.
  - apply (C9_unrecognized_key_changes_nothing None). reflexivity.
Defined.

(** ** The traversal *)
Section DrawFacts.
Import Hierarchy Matrix4.

(** [draw] makes the stack calls of the depth-first traversal of the
    figure, each part placed with the matrix [placement_used] names. *)
Lemma draw_calls gl g f :
  calls (after_draw gl g f) = traversal placement_used g None figure.
Proof.
  unfold after_draw, draw, renderCube.
  destruct (positionIndex gl <? 0)%Z; [| destruct (normalIndex gl <? 0)%Z];
    cbn; reflexivity.
Qed.

(** What [draw] prints: nothing but the failures of [renderCube]. *)
Lemma draw_console gl g f :
  console (after_draw gl g f) = console f ++ draw_output gl.
Proof.
  unfold after_draw, draw, renderCube, draw_output.
  destruct (positionIndex gl <? 0)%Z; [| destruct (normalIndex gl <? 0)%Z];
    cbn; rewrite <- ?app_assoc; cbn [app]; try reflexivity.
  now rewrite app_nil_r.
Qed.

(** The stack [draw] leaves behind is the one its calls build from a new
    stack. *)
Lemma draw_stack gl g f :
  s (after_draw gl g f)
  = Stack.run (map as_call (calls (after_draw gl g f))) Stack.new.
Proof.
  rewrite draw_calls.
  unfold after_draw, draw, renderCube.
  destruct (positionIndex gl <? 0)%Z; [| destruct (normalIndex gl <? 0)%Z];
    cbn; reflexivity.
Qed.

Lemma draw_output_clean gl :
  ~ In mismatch_warning (draw_output gl) /\
  ~ In underflow_warning (draw_output gl).
Proof.
  unfold draw_output, mismatch_warning, underflow_warning.
  destruct (positionIndex gl <? 0)%Z; [| destruct (normalIndex gl <? 0)%Z];
    cbn [repeat In]; split; intro H;
    repeat (destruct H as [H | H]; [discriminate H |]); exact H.
Qed.

(** C5: one run of [draw] makes fourteen pushes and fourteen pops on the
    stack it creates, no pop finds the stack empty, the stack is empty at
    the end, and neither the warning "pops do not match pushes" nor an
    underflow warning is printed. *)
Theorem C5_draw_balances_pushes_and_pops :
  forall gl g f,
    let f' := after_draw gl g f in
    let cs := map as_call (calls f') in
    Stack.pushes cs = 14%Z /\
    Stack.pops cs = 14%Z /\
    Stack.no_underflow 0 cs = true /\
    s f' = Stack.run cs Stack.new /\
    Stack.isEmpty (s f') = true /\
    fst (s_isEmpty f') = true /\
    console f' = console f ++ draw_output gl /\
    ~ In mismatch_warning (draw_output gl) /\
    ~ In underflow_warning (draw_output gl).
Proof.
  intros gl g f f' cs.
  assert (Hs : s f' = Stack.run cs Stack.new) by apply draw_stack.
  assert (Hcs : cs = map as_call (traversal placement_used g None figure)).
  { unfold cs, f'. now rewrite draw_calls. }
  assert (He : Stack.isEmpty (s f') = true).
  { rewrite Hs, Hcs. reflexivity. }
  repeat split.
  - rewrite Hcs. reflexivity.
  - rewrite Hcs. reflexivity.
  - rewrite Hcs. reflexivity.
  - exact Hs.
  - exact He.
  - exact He.
  - apply draw_console.
  - apply draw_output_clean.
  - apply draw_output_clean.
Qed.

(** In every state, for every part, the matrix [draw] pushes is the
    matrix on top of the stack, which is the one pushed for the parent of
    the part, times the placement matrix of the part [placement_used]
    names; the torso, which has no parent, pushes its own matrix on the
    empty stack. *)
Lemma draw_pushes_top_times_placement gl g f p :
  let cs := calls (after_draw gl g f) in
  match parent p with
  | None => pushed_for p cs = Some (None, Matrix g p)
  | Some q =>
      exists u mq,
        pushed_for q cs = Some (u, mq) /\
        pushed_for p cs
        = Some (Some mq, multiply mq (Matrix g (placement_used p)))
  end.
Proof.
  cbv zeta. rewrite draw_calls.
  destruct p; cbn [parent]; try reflexivity;
    eexists; eexists; split; reflexivity.
Qed.

(** The state after one press of [j]. *)
Lemma after_j :
  let g := handleKeyPress (Some "j"%string) initial in
  Matrix g torso = setTranslate identity 0 0 0 /\
  Matrix g legLeft = setTranslate identity (-2) (-7) 0 /\
  Matrix g ankleRight = setTranslate identity 0 (-4) 0 /\
  Matrix g ankleLeft
  = mk 1 0 0 0
       0 (cos (PI / 12)) (- sin (PI / 12)) 0
       0 (sin (PI / 12)) (cos (PI / 12)) 0
       0 (-2 - 2 * cos (PI / 12)) (2 * sin (PI / 12)) 1.
Proof.
  cbv zeta.
  assert (Hk : keys ankleLeft = Some ("j"%string, "J"%string))
    by reflexivity.
  rewrite (proj1 (@key_step ankleLeft _ _ initial Hk)).
  unfold bump. cbn [Matrix Angle].
  rewrite upd_same, !upd_other by discriminate.
  repeat split.
  change (Angle initial ankleLeft) with 0.
  unfold pose, swing_pose. rewrite swing_elements.
  assert (E : rad (- apply_step Plus15 0) = - (PI / 12))
    by (unfold rad, apply_step; lra).
  rewrite E, cos_neg, sin_neg. apply mk_ext; lra.
Qed.

(** C3 fails on the ankles.  After one press of [j], which turns the left
    ankle, the matrix [draw] pushes for the left ankle is the matrix on top
    of the stack (torso times left leg) times the placement matrix of the
    RIGHT ankle, and this is not the product with the placement matrix of
    the left ankle. *)
Theorem C3_left_ankle_pushed_with_right_ankle_matrix :
  forall gl f,
    let g := handleKeyPress (Some "j"%string) initial in
    let top := multiply (Matrix g torso) (Matrix g legLeft) in
    pushed_for legLeft (calls (after_draw gl g f)) = Some (Some (Matrix g torso), top) /\
    pushed_for ankleLeft (calls (after_draw gl g f))
    = Some (Some top, multiply top (Matrix g ankleRight)) /\
    multiply top (Matrix g ankleRight) <> multiply top (Matrix g ankleLeft) /\
    calls (after_draw gl g f) <> spec_traversal g.
Proof.
  intros gl f g top.
  assert (Hne : multiply top (Matrix g ankleRight)
                <> multiply top (Matrix g ankleLeft)).
  { intro H. apply (f_equal e6) in H. revert H.
    unfold top, g.
    destruct after_j as (-> & -> & -> & ->).
    unfold multiply, concat, setTranslate.
    cbn [e0 e1 e2 e3 e4 e5 e6 e7 e8 e9 e10 e11 e12 e13 e14 e15].
    pose proof sin_PI12_pos. lra. }
  rewrite draw_calls.
  split; [reflexivity |]. split; [reflexivity |]. split; [exact Hne |].
  intro H. apply Hne.
  exact (f_equal (fun cs => match pushed_for ankleLeft cs with
                            | Some (_, m) => m
                            | None => identity
                            end) H).
Qed.

End DrawFacts.

(** ** The rotator *)
Section RotatorFacts.
Import SimpleRotator.

Lemma V3_ext a0 a1 a2 b0 b1 b2 :
  a0 = b0 -> a1 = b1 -> a2 = b2 -> V3 a0 a1 a2 = V3 b0 b1 b2.
Proof. intros. subst. reflexivity. Qed.

Lemma sqrt_ext a b : a = b -> sqrt a = sqrt b.
Proof. intro H. now rewrite H. Qed.

(** The three unit vectors [setView] computes are the basis of the view
    direction and the up vector. *)
Lemma setView_basis dir up dist r :
  let d := match dir with Some v => v | None => V3 0 0 10 end in
  let u := match up with Some v => v | None => V3 0 1 0 end in
  unitx (setView dir up dist r) = basis_x d u /\
  unity (setView dir up dist r) = basis_y d u /\
  unitz (setView dir up dist r) = basis_z d.
Proof. cbv zeta. repeat split. Qed.

(** An event that is no drag leaves the three unit vectors alone. *)
Lemma handle_no_drag cv ev r :
  match ev with MouseMove _ _ => negb (dragging r) | _ => true end = true ->
  unitx (handle cv ev r) = unitx r /\
  unity (handle cv ev r) = unity r /\
  unitz (handle cv ev r) = unitz r.
Proof.
  destruct ev as [x y | x y | | d]; cbn [handle]; intro H.
  - unfold doMouseDown. destruct (dragging r); repeat split.
  - unfold doMouseDrag. rewrite H. repeat split.
  - unfold doMouseUp. destruct (dragging r); repeat split.
  - repeat split.
Qed.

Lemma handle_viewZ cv ev r :
  viewZ (handle cv ev r)
  = match ev with SetViewDistance d => d | _ => viewZ r end.
Proof.
  destruct ev as [x y | x y | | d]; cbn [handle].
  - unfold doMouseDown. destruct (dragging r); reflexivity.
  - unfold doMouseDrag. destruct (negb (dragging r)); [reflexivity |].
    destruct (prevx r), (prevy r); reflexivity.
  - unfold doMouseUp. destruct (dragging r); reflexivity.
  - reflexivity.
Qed.

Lemma handle_all_no_drag cv evs : forall r,
  no_drag cv evs r = true ->
  unitx (handle_all cv evs r) = unitx r /\
  unity (handle_all cv evs r) = unity r /\
  unitz (handle_all cv evs r) = unitz r /\
  viewZ (handle_all cv evs r) = distance_after evs (viewZ r).
Proof.
  induction evs as [| ev evs IH]; intros r H; cbn [handle_all no_drag] in *.
  - repeat split.
  - apply andb_true_iff in H as [H1 H2].
    destruct (IH _ H2) as (Hx & Hy & Hz & Hd).
    destruct (handle_no_drag cv ev r H1) as (Hx' & Hy' & Hz').
    rewrite Hx, Hy, Hz, Hd, Hx', Hy', Hz', handle_viewZ.
    repeat split. destruct ev; reflexivity.
Qed.

Lemma normalize_z10 : normalize (copy (V3 0 0 10)) = V3 0 0 1.
Proof.
  unfold normalize, length, copy. cbn [c0 c1 c2].
  assert (E : 0 * 0 + 0 * 0 + 10 * 10 = 10 * 10) by lra.
  rewrite E, sqrt_square by lra. apply V3_ext; lra.
Qed.

Lemma length_z10 : length (V3 0 0 10) = 10.
Proof.
  unfold length. cbn [c0 c1 c2].
  assert (E : 0 * 0 + 0 * 0 + 10 * 10 = 10 * 10) by lra.
  rewrite E, sqrt_square by lra. reflexivity.
Qed.

Lemma up_minus_projection :
  subtract (V3 0 1 0)
           (scale (copy (V3 0 0 1)) (dot (V3 0 0 1) (V3 0 1 0)))
  = V3 0 1 0.
Proof.
  unfold subtract, scale, copy, dot. cbn [c0 c1 c2]. apply V3_ext; lra.
Qed.

Lemma normalize_y1 : normalize (V3 0 1 0) = V3 0 1 0.
Proof.
  unfold normalize, length. cbn [c0 c1 c2].
  assert (E : 0 * 0 + 1 * 1 + 0 * 0 = 1 * 1) by lra.
  rewrite E, sqrt_square by lra. apply V3_ext; lra.
Qed.

Lemma cross_y_z : cross (V3 0 1 0) (V3 0 0 1) = V3 1 0 0.
Proof. unfold cross. cbn [c0 c1 c2]. apply V3_ext; lra. Qed.

(** The rotator of the robot, [new SimpleRotator(canvas)]: the view is
    along the z axis from distance 10. *)
Lemma default_rotator cv :
  unitx (new cv None None None) = V3 1 0 0 /\
  unity (new cv None None None) = V3 0 1 0 /\
  unitz (new cv None None None) = V3 0 0 1 /\
  viewZ (new cv None None None) = 10.
Proof.
  unfold new, setView. cbn [unitx unity unitz viewZ].
  rewrite normalize_z10, up_minus_projection, normalize_y1, cross_y_z,
    length_z10.
  repeat split.
Qed.

Lemma default_view_matrix cv :
  getViewMatrix (new cv None None None)
  = [1; 0; 0; 0;  0; 1; 0; 0;  0; 0; 1; 0;  0; 0; -10; 1].
Proof.
  unfold getViewMatrix, Float32Array, getViewMatrixArray.
  destruct (default_rotator cv) as (-> & -> & -> & ->).
  reflexivity.
Qed.

Lemma dot_normalize v :
  0 < dot v v -> dot (normalize v) (normalize v) = 1.
Proof.
  intro H. unfold dot in H.
  assert (Hn : length v * length v = c0 v * c0 v + c1 v * c1 v + c2 v * c2 v).
  { unfold length. apply sqrt_sqrt. lra. }
  assert (Hd : length v <> 0).
  { intro E. rewrite E in Hn. lra. }
  unfold normalize, dot. cbn [c0 c1 c2].
  assert (E : c0 v / length v * (c0 v / length v)
              + c1 v / length v * (c1 v / length v)
              + c2 v / length v * (c2 v / length v)
              = (c0 v * c0 v + c1 v * c1 v + c2 v * c2 v)
                / (length v * length v)) by (field; exact Hd).
  rewrite E, <- Hn. field. exact Hd.
Qed.

Lemma dot_normalize_l v w : dot (normalize v) w = dot v w / length v.
Proof.
  unfold normalize, dot, Rdiv. cbn [c0 c1 c2]. ring.
Qed.

Lemma dot_cross_l v w : dot (cross v w) v = 0.
Proof. unfold dot, cross. cbn [c0 c1 c2]. ring. Qed.

Lemma dot_cross_r v w : dot (cross v w) w = 0.
Proof. unfold dot, cross. cbn [c0 c1 c2]. ring. Qed.

Lemma dot_cross_cross v w :
  dot (cross v w) (cross v w) = dot v v * dot w w - dot v w * dot v w.
Proof. unfold dot, cross. cbn [c0 c1 c2]. ring. Qed.

(** When the view direction is not zero and the up vector is not along
    it, the three unit vectors of a new rotator are orthonormal. *)
Lemma new_orthonormal cv dir up dist :
  let d := match dir with Some v => v | None => V3 0 0 10 end in
  let u := match up with Some v => v | None => V3 0 1 0 end in
  let r := new cv dir up dist in
  let p := subtract u (scale (normalize d) (dot (normalize d) u)) in
  0 < dot d d -> 0 < dot p p ->
  dot (unitx r) (unitx r) = 1 /\ dot (unity r) (unity r) = 1 /\
  dot (unitz r) (unitz r) = 1 /\ dot (unitx r) (unity r) = 0 /\
  dot (unity r) (unitz r) = 0 /\ dot (unitx r) (unitz r) = 0.
Proof.
  intros d u r p Hd Hp.
  assert (Ez : unitz r = normalize d).
  { unfold r, new, setView, d. now destruct dir. }
  assert (Ey : unity r = normalize p).
  { unfold r, new, setView, p, d, u. now destruct dir, up. }
  assert (Ex : unitx r = cross (unity r) (unitz r)).
  { unfold r, new, setView. reflexivity. }
  assert (Hzz : dot (normalize d) (normalize d) = 1)
    by (apply dot_normalize; assumption).
  assert (Hyy : dot (normalize p) (normalize p) = 1)
    by (apply dot_normalize; assumption).
  assert (Hyz : dot (normalize p) (normalize d) = 0).
  { rewrite dot_normalize_l.
    assert (E : dot p (normalize d) = 0).
    { unfold p. unfold dot in Hzz |- *. unfold subtract, scale.
      cbn [c0 c1 c2] in *.
      set (z0 := c0 (normalize d)) in *. set (z1 := c1 (normalize d)) in *.
      set (z2 := c2 (normalize d)) in *.
      transitivity ((z0 * c0 u + z1 * c1 u + z2 * c2 u)
                    * (1 - (z0 * z0 + z1 * z1 + z2 * z2))); [ring |].
      rewrite Hzz. ring. }
    rewrite E. unfold Rdiv. ring. }
  rewrite Ex, Ey, Ez.
  rewrite dot_cross_cross, dot_cross_l, dot_cross_r, Hyy, Hzz, Hyz.
  repeat split; ring.
Qed.

(** C8: after any events that perform no drag, [getViewMatrix] returns
    the column-major matrix of the basis that [setView] derived from the
    view direction and the up vector given to the constructor (or their
    defaults), with the current view distance, negated, as the translation
    along z; for the rotator built without arguments this is the matrix of
    the identity basis at distance 10. *)
Theorem C8_view_matrix_without_drag :
  forall cv dir up dist evs,
    let r0 := new cv dir up dist in
    let r := handle_all cv evs r0 in
    let d := match dir with Some v => v | None => V3 0 0 10 end in
    let u := match up with Some v => v | None => V3 0 1 0 end in
    no_drag cv evs r0 = true ->
    getViewMatrix r
    = column_major_view (basis_x d u) (basis_y d u) (basis_z d)
                        (getViewDistance r) /\
    getViewDistance r = distance_after evs (getViewDistance r0) /\
    getViewMatrix (new cv None None None)
    = [1; 0; 0; 0;  0; 1; 0; 0;  0; 0; 1; 0;  0; 0; -10; 1].
Proof.
  intros cv dir up dist evs r0 r d u H.
  destruct (handle_all_no_drag cv evs r0 H) as (Hx & Hy & Hz & Hd).
  destruct (setView_basis dir up dist
              {| unitx := V3 0 0 0; unity := V3 0 0 0; unitz := V3 0 0 0;
                 viewZ := 0; prevx := None; prevy := None;
                 dragging := false |}) as (Bx & By & Bz).
  cbv zeta in Bx, By, Bz.
  subst r r0 d u.
  split; [| split].
  - unfold getViewMatrix, Float32Array, getViewMatrixArray,
      column_major_view, getViewDistance.
    rewrite Hx, Hy, Hz. unfold new at 1 2 3 4 5 6 7 8 9.
    rewrite Bx, By, Bz. reflexivity.
  - exact Hd.
  - apply default_view_matrix.
Qed.

End RotatorFacts.

(** The rotator of the robot, a click without a move, and the
    [setViewDistance(45)] of [draw]. *)
Lemma C8_view_matrix_without_drag_witness :
  let cv := SimpleRotator.mkCanvas 600 400 in
  let evs := [SimpleRotator.MouseMove 5 5; SimpleRotator.MouseDown 10 20;
              SimpleRotator.MouseUp; SimpleRotator.SetViewDistance 45] in
  SimpleRotator.getViewDistance
    (SimpleRotator.handle_all cv evs (SimpleRotator.new cv None None None))
  = SimpleRotator.distance_after evs
      (SimpleRotator.getViewDistance (SimpleRotator.new cv None None None)).
Proof.
  cbv zeta.
  apply (C8_view_matrix_without_drag
           (SimpleRotator.mkCanvas 600 400) None None None
           [SimpleRotator.MouseMove 5 5; SimpleRotator.MouseDown 10 20;
            SimpleRotator.MouseUp; SimpleRotator.SetViewDistance 45]).
  reflexivity.
Defined.

(** ** The circles *)
Section CircleFacts.
Import CircleNPolyIntersec.

Lemma dist_euclidean a b : dist a b = euclidean a b.
Proof.
  unfold dist, euclidean, Rsqr. apply sqrt_ext. ring.
Qed.

Lemma dist_sym a b : dist a b = dist b a.
Proof. unfold dist. apply sqrt_ext. ring. Qed.

Lemma dist_horizontal x1 x2 y : x1 <= x2 -> dist (V2 x1 y) (V2 x2 y) = x2 - x1.
Proof.
  intro H. unfold dist. cbn [px py].
  assert (E : (x2 - x1) * (x2 - x1) + (y - y) * (y - y)
              = (x2 - x1) * (x2 - x1)) by ring.
  rewrite E. apply sqrt_square. lra.
Qed.

Lemma circleCircleIntersect_spec c1 r1 c2 r2 :
  circleCircleIntersect c1 r1 c2 r2 = true <-> dist c1 c2 <= r1 + r2.
Proof.
  unfold circleCircleIntersect, Num.gtb.
  destruct (Rgt_dec (dist c1 c2) (r1 + r2)); split; intro H;
    try reflexivity; try discriminate; lra.
Qed.

(** C7: the first two circles of the demo, with centres (100,100) and
    (250,100) and radius 50, do not intersect, their centres being 150
    apart; with the second centre at (140,100) they do. *)
Theorem C7_demo_circles :
  nth_error circs 0 = Some (mkCircle (V2 100 100) 50) /\
  nth_error circs 1 = Some (mkCircle (V2 250 100) 50) /\
  dist (V2 100 100) (V2 250 100) = 150 /\
  circleCircleIntersect (V2 100 100) 50 (V2 250 100) 50 = false /\
  circleCircleIntersect (V2 100 100) 50 (V2 140 100) 50 = true.
Proof.
  assert (D1 : dist (V2 100 100) (V2 250 100) = 150).
  { rewrite dist_horizontal by lra. lra. }
  assert (D2 : dist (V2 100 100) (V2 140 100) = 40).
  { rewrite dist_horizontal by lra. lra. }
  repeat split.
  - exact D1.
  - unfold circleCircleIntersect. rewrite D1, gtb_true by lra. reflexivity.
  - unfold circleCircleIntersect. rewrite D2, gtb_false by lra. reflexivity.
Qed.

(** C10: [circleCircleIntersect] is true exactly when the Euclidean
    distance of the centres is at most the sum of the radii, in
    particular when the circles are tangent, and exchanging the two
    circles does not change its result. *)
Theorem C10_circles_intersect_iff_close :
  forall c1 r1 c2 r2,
    (circleCircleIntersect c1 r1 c2 r2 = true
     <-> euclidean c1 c2 <= r1 + r2) /\
    (euclidean c1 c2 = r1 + r2 -> circleCircleIntersect c1 r1 c2 r2 = true) /\
    circleCircleIntersect c1 r1 c2 r2 = circleCircleIntersect c2 r2 c1 r1.
Proof.
  intros c1 r1 c2 r2.
  assert (Hiff : circleCircleIntersect c1 r1 c2 r2 = true
                 <-> euclidean c1 c2 <= r1 + r2).
  { rewrite circleCircleIntersect_spec, dist_euclidean. reflexivity. }
  split; [exact Hiff |]. split.
  - intro H. apply Hiff. lra.
  - unfold circleCircleIntersect.
    rewrite (dist_sym c2 c1), (Rplus_comm r2 r1). reflexivity.
Qed.

End CircleFacts.

(** Two tangent circles: centres 3 apart, radii 1 and 2. *)
Lemma C10_circles_intersect_iff_close_witness :
  CircleNPolyIntersec.circleCircleIntersect
    (CircleNPolyIntersec.V2 0 0) 1 (CircleNPolyIntersec.V2 3 0) 2 = true.
Proof.
  apply (C10_circles_intersect_iff_close
           (CircleNPolyIntersec.V2 0 0) 1 (CircleNPolyIntersec.V2 3 0) 2).
  rewrite <- dist_euclidean, dist_horizontal; lra.
Defined.

(** * Further properties *)

(** ** The stack is last in, first out *)
Section StackLifo.
Import Stack.
Variable V : Type.
Implicit Types (s : Stack V) (l ms : list V).

Lemma represents_new : represents [] (@new V).
Proof.
  split; [reflexivity |]. intro k. cbn.
  destruct (0 <=? k)%Z; [| reflexivity]. now destruct (Z.to_nat k).
Qed.

Lemma represents_push l s m :
  represents l s -> represents (l ++ [m]) (push m s).
Proof.
  intros [Ht Hk]. split.
  - rewrite t_push, Ht, length_app. cbn [List.length]. lia.
  - intro k. cbn [push elements].
    destruct (Z.eq_dec k (t s)) as [-> | Hne].
    + rewrite get_set_same, Ht.
      destruct (Z.leb_spec 0 (Z.of_nat (List.length l))); [| lia].
      rewrite Nat2Z.id, nth_error_app2, Nat.sub_diag by lia. reflexivity.
    + rewrite get_set_other by congruence. rewrite Hk.
      destruct (Z.leb_spec 0 k); [| reflexivity].
      destruct (Nat.lt_ge_cases (Z.to_nat k) (List.length l)) as [Hlt | Hge].
      * now rewrite nth_error_app1.
      * rewrite (proj2 (nth_error_None l _) Hge).
        symmetry. apply nth_error_None. rewrite length_app. cbn [List.length].
        lia.
Qed.

Lemma represents_top l s m :
  represents (l ++ [m]) s -> top s = (Some m, []).
Proof.
  intros [Ht Hk]. rewrite length_app in Ht. cbn [List.length] in Ht.
  unfold top. destruct (Z.leb_spec (t s) 0); [lia |].
  rewrite Hk. destruct (Z.leb_spec 0 (t s - 1)); [| lia].
  replace (Z.to_nat (t s - 1)) with (List.length l) by lia.
  now rewrite nth_error_app2, Nat.sub_diag by lia.
Qed.

Lemma represents_pop l s m :
  represents (l ++ [m]) s ->
  exists s', pop s = (Some m, s', []) /\ represents l s'.
Proof.
  intros [Ht Hk]. rewrite length_app in Ht. cbn [List.length] in Ht.
  unfold pop. destruct (Z.leb_spec (t s) 0); [lia |].
  eexists. split.
  - rewrite Hk. destruct (Z.leb_spec 0 (t s - 1)); [| lia].
    replace (Z.to_nat (t s - 1)) with (List.length l) by lia.
    rewrite nth_error_app2, Nat.sub_diag by lia. reflexivity.
  - split; [cbn [t]; lia |]. intro k. cbn [elements].
    destruct (Z.eq_dec k (t s - 1)) as [-> | Hne].
    + rewrite get_set_same. destruct (Z.leb_spec 0 (t s - 1)); [| lia].
      symmetry. apply nth_error_None. lia.
    + rewrite get_set_other by congruence. rewrite Hk.
      destruct (Z.leb_spec 0 k); [| reflexivity].
      destruct (Nat.lt_ge_cases (Z.to_nat k) (List.length l)) as [Hlt | Hge].
      * now rewrite nth_error_app1.
      * rewrite (proj2 (nth_error_None l _) Hge).
        apply nth_error_None. rewrite length_app. cbn [List.length]. lia.
Qed.

Lemma represents_push_all ms : forall l s,
  represents l s -> represents (l ++ ms) (push_all ms s).
Proof.
  induction ms as [| m ms IH]; intros l s H; cbn [push_all].
  - now rewrite app_nil_r.
  - replace (l ++ m :: ms) with ((l ++ [m]) ++ ms)
      by (now rewrite <- app_assoc).
    apply IH. now apply represents_push.
Qed.

Lemma represents_pop_n ms : forall l s,
  represents (l ++ ms) s ->
  exists s',
    pop_n (List.length ms) s = (map Some (rev ms), s', []) /\
    represents l s'.
Proof.
  induction ms as [| m ms IH] using rev_ind; intros l s H.
  - rewrite app_nil_r in H. exists s. split; [reflexivity | exact H].
  - rewrite app_assoc in H.
    destruct (@represents_pop (l ++ ms) s m H) as (s1 & Hp & H1).
    destruct (IH l s1 H1) as (s2 & Hn & H2).
    exists s2. split; [| exact H2].
    rewrite length_app, Nat.add_comm. cbn [List.length Nat.add pop_n].
    rewrite Hp, Hn, rev_app_distr. reflexivity.
Qed.

Lemma reachable_represents s : reachable s -> exists l, represents l s.
Proof.
  induction 1 as [| m s _ [l IH] | s _ [l IH]].
  - exists []. apply represents_new.
  - exists (l ++ [m]). now apply represents_push.
  - destruct l as [| x l'] using rev_ind.
    + exists []. rewrite pop_empty; [exact IH |].
      destruct IH as [-> _]. cbn. lia.
    + destruct (@represents_pop l' s x IH) as (s' & -> & H'). now exists l'.
Qed.

(** X1: values pushed on a reachable stack come back in the opposite
    order: after pushing the values [ms], as many pops return them last
    pushed first, log nothing, and leave a stack of the old depth with the
    old contents. *)
Theorem pushes_then_pops_reverse :
  forall s ms,
    reachable s ->
    exists s',
      pop_n (List.length ms) (push_all ms s) = (map Some (rev ms), s', []) /\
      depth s' = depth s /\
      (forall k, JSArray.get (elements s') k = JSArray.get (elements s) k).
Proof.
  intros s ms Hr.
  destruct (@reachable_represents s Hr) as [l Hl].
  destruct (@represents_pop_n ms l (push_all ms s)
              (@represents_push_all ms l s Hl))
    as (s' & Hp & [Ht Hk]).
  exists s'. split; [exact Hp |]. destruct Hl as [Ht0 Hk0]. split.
  - unfold depth. congruence.
  - intro k. now rewrite Hk, Hk0.
Qed.

(** X2: on a reachable stack [top()] returns, without logging, the value
    that the next [pop()] returns, and both return exactly the value pushed
    last that is still on the stack; nothing pushed earlier is lost and no
    popped value stays stored at or above the counter. *)
Theorem reachable_stack_is_a_list :
  forall s,
    reachable s ->
    exists l,
      represents l s /\
      above_clear s /\
      match rev l with
      | [] => top s = (None, [[LStr "top = "; LNum 0]; underflow_warning])
              /\ pop s = (None, s, [underflow_warning])
      | m :: before =>
          top s = (Some m, []) /\
          exists s', pop s = (Some m, s', []) /\ represents (rev before) s'
      end.
Proof.
  intros s Hr. destruct (@reachable_represents s Hr) as [l Hl].
  exists l. split; [exact Hl |]. split; [now apply reachable_above_clear |].
  destruct l as [| m l'] using rev_ind.
  - cbn [rev]. destruct Hl as [Ht _]. cbn in Ht.
    split.
    + rewrite top_empty by lia. now rewrite Ht.
    + apply pop_empty. lia.
  - rewrite rev_app_distr. cbn [rev app]. rewrite rev_involutive. split.
    + now apply represents_top with (l := l').
    + now apply represents_pop.
Qed.

End StackLifo.

(** ** What the keys do to the figure *)
Section KeyEffects.
Import Hierarchy Matrix4.

(** X3: a body-part key moves one part only: the angle of its part
    changes by exactly 15 degrees, the matrix of its part becomes the one
    computed from the new angle, and the angles and matrices of the other
    thirteen parts stay as they are. *)
Theorem recognized_key_moves_one_part :
  forall ch g,
    recognized ch = true ->
    exists p d,
      key_of p d = Some ch /\
      Angle (handleKeyPress (Some ch) g) p = apply_step d (Angle g p) /\
      Matrix (handleKeyPress (Some ch) g) p
      = pose p (apply_step d (Angle g p)) /\
      forall q, q <> p ->
        Angle (handleKeyPress (Some ch) g) q = Angle g q /\
        Matrix (handleKeyPress (Some ch) g) q = Matrix g q.
Proof.
  intros ch g H.
  destruct (@handleKeyPress_bump ch g H) as (p & d & Hk & ->).
  exists p, d. split; [exact Hk |].
  unfold bump. cbn [Matrix Angle]. rewrite !upd_same.
  repeat split; now rewrite upd_other.
Qed.

Lemma handleKeyPress_cases ch g :
  handleKeyPress ch g = g \/ exists p d, handleKeyPress ch g = bump p d g /\
                                         keys p <> None.
Proof.
  destruct (unrecognized ch) eqn:E.
  - left. now apply handleKeyPress_unrecognized.
  - right. destruct ch as [c |]; [| discriminate E].
    cbn [unrecognized] in E. apply negb_false_iff in E.
    destruct (@handleKeyPress_bump c g E) as (p & d & Hk & ->).
    exists p, d. split; [reflexivity |].
    unfold key_of in Hk. destruct (keys p); [discriminate | discriminate Hk].
Qed.

(** An invariant of the key handler holds in every reachable state. *)
Lemma reachable_ind (P : Globals -> Prop) :
  P initial ->
  (forall g p d, P g -> keys p <> None -> P (bump p d g)) ->
  forall g, reachable g -> P g.
Proof.
  intros H0 Hs g [chs ->].
  assert (G : forall g0, P g0 -> P (handleKeys chs g0)).
  { induction chs as [| ch chs IH]; intros g0 Hg; cbn [handleKeys].
    - exact Hg.
    - apply IH.
      destruct (handleKeyPress_cases ch g0) as [-> | (p & d & -> & Hk)].
      + exact Hg.
      + now apply Hs. }
  now apply G.
Qed.

(** X4: in every state the page can reach, every angle is a whole
    multiple of 15 degrees. *)
Theorem reachable_angles_are_multiples_of_15 :
  forall g, reachable g -> forall p, exists k : Z, Angle g p = 15 * IZR k.
Proof.
  intros g Hr. pattern g. revert g Hr. apply reachable_ind.
  - intro p. exists 0%Z. cbn. lra.
  - intros g p d IH _ q. unfold bump. cbn [Angle].
    destruct (Part_eq_dec q p) as [-> | Hne].
    + rewrite upd_same. destruct (IH p) as [k ->].
      destruct d; unfold apply_step.
      * exists (k + 1)%Z. rewrite plus_IZR. lra.
      * exists (k - 1)%Z. rewrite minus_IZR. lra.
    + rewrite upd_other by exact Hne. apply IH.
Qed.

(** X5: the feet have angle variables but no key: in every reachable
    state their angles are 0 and their matrices are the translations they
    are declared with. *)
Theorem feet_never_move :
  forall g,
    reachable g ->
    Angle g footLeft = 0 /\ Angle g footRight = 0 /\
    Matrix g footLeft = setTranslate identity 0 (-2) 1.6 /\
    Matrix g footRight = setTranslate identity 0 (-2) 1.6.
Proof.
  intros g Hr. pattern g. revert g Hr. apply reachable_ind.
  - repeat split.
  - intros g p d IH Hk. unfold bump. cbn [Angle Matrix].
    assert (Hl : footLeft <> p) by (intros <-; now apply Hk).
    assert (Hr : footRight <> p) by (intros <-; now apply Hk).
    rewrite !upd_other by assumption. exact IH.
Qed.

Lemma rigid_translation this x y z : rigid (setTranslate this x y z).
Proof.
  unfold rigid, setTranslate.
  cbn [e0 e1 e2 e3 e4 e5 e6 e7 e8 e9 e10 e11 e12 e13 e14 e15].
  repeat split; lra.
Qed.

Lemma rigid_turn tx ty tz a : rigid (turn_pose tx ty tz a).
Proof.
  unfold turn_pose. rewrite turn_elements.
  pose proof (sin2_cos2 (rad a)) as H. unfold Rsqr in H.
  unfold rigid.
  cbn [e0 e1 e2 e3 e4 e5 e6 e7 e8 e9 e10 e11 e12 e13 e14 e15].
  repeat split; lra.
Qed.

Lemma rigid_swing px py pz bx by_ bz tx ty tz a :
  rigid (swing_pose px py pz bx by_ bz tx ty tz a).
Proof.
  unfold swing_pose. rewrite swing_elements.
  pose proof (sin2_cos2 (rad (- a))) as H. unfold Rsqr in H.
  unfold rigid.
  cbn [e0 e1 e2 e3 e4 e5 e6 e7 e8 e9 e10 e11 e12 e13 e14 e15].
  repeat split; lra.
Qed.

Lemma rigid_pose p a : rigid (pose p a).
Proof.
  destruct p; unfold pose, initialMatrix;
    first [apply rigid_turn | apply rigid_swing | apply rigid_translation].
Qed.

(** X6: in every reachable state the placement matrix of every part is a
    rigid motion: the key handler never scales or shears a part. *)
Theorem reachable_placements_are_rigid :
  forall g, reachable g -> forall p, rigid (Matrix g p).
Proof.
  intros g Hr. pattern g. revert g Hr. apply reachable_ind.
  - intro p. cbn [initial Matrix]. unfold initialMatrix.
    destruct p; apply rigid_translation.
  - intros g p d IH _ q. unfold bump. cbn [Matrix].
    destruct (Part_eq_dec q p) as [-> | Hne].
    + rewrite upd_same. apply rigid_pose.
    + rewrite upd_other by exact Hne. apply IH.
Qed.

Lemma bump_commute p d q d' g r :
  p <> q ->
  Angle (bump p d (bump q d' g)) r = Angle (bump q d' (bump p d g)) r /\
  Matrix (bump p d (bump q d' g)) r = Matrix (bump q d' (bump p d g)) r.
Proof.
  intro H. unfold bump, upd. cbn [Angle Matrix].
  destruct (Part_eq_dec p q) as [E | _]; [contradiction |].
  destruct (Part_eq_dec q p) as [E | _]; [symmetry in E; contradiction |].
  destruct (Part_eq_dec r p) as [-> | Hp].
  - destruct (Part_eq_dec p q) as [E | _]; [contradiction |].
    split; reflexivity.
  - destruct (Part_eq_dec r q); split; reflexivity.
Qed.

(** X7: keys of different parts commute: pressing one and then the other
    leaves every angle and every matrix as pressing them in the other
    order does. *)
Theorem keys_of_different_parts_commute :
  forall p d q d' ch ch' g,
    key_of p d = Some ch -> key_of q d' = Some ch' -> p <> q ->
    forall r,
      Angle (handleKeyPress (Some ch) (handleKeyPress (Some ch') g)) r
      = Angle (handleKeyPress (Some ch') (handleKeyPress (Some ch) g)) r /\
      Matrix (handleKeyPress (Some ch) (handleKeyPress (Some ch') g)) r
      = Matrix (handleKeyPress (Some ch') (handleKeyPress (Some ch) g)) r.
Proof.
  intros p d q d' ch ch' g Hp Hq Hne r.
  assert (K : forall p0 d0 c g0,
             key_of p0 d0 = Some c ->
             handleKeyPress (Some c) g0 = bump p0 d0 g0).
  { intros p0 d0 c g0 Hk. unfold key_of in Hk.
    destruct (keys p0) as [[inc dec] |] eqn:E; [| discriminate Hk].
    injection Hk as <-.
    destruct (@key_step p0 inc dec g0 E) as [Hi Hd].
    destruct d0; assumption. }
  rewrite (K q d' ch' g Hq), (K p d ch g Hp).
  rewrite (K p d ch _ Hp), (K q d' ch' _ Hq).
  now apply bump_commute.
Qed.

End KeyEffects.

(** ** Repeated and opposite keys *)
Section KeyRoundTrips.
Import Hierarchy Matrix4.

Lemma key_of_bump p d ch g :
  key_of p d = Some ch -> handleKeyPress (Some ch) g = bump p d g.
Proof.
  intro Hk. unfold key_of in Hk.
  destruct (keys p) as [[inc dec] |] eqn:E; [| discriminate Hk].
  injection Hk as <-.
  destruct (@key_step p inc dec g E) as [Hi Hd].
  destruct d; assumption.
Qed.

Lemma step_forth a : apply_step Plus15 (apply_step Minus15 a) = a.
Proof. unfold apply_step. lra. Qed.

Lemma bump_down_up p g :
  Angle (bump p Plus15 (bump p Minus15 g)) p = Angle g p /\
  Matrix (bump p Plus15 (bump p Minus15 g)) p = pose p (Angle g p) /\
  (forall q, q <> p ->
     Angle (bump p Plus15 (bump p Minus15 g)) q = Angle g q /\
     Matrix (bump p Plus15 (bump p Minus15 g)) q = Matrix g q).
Proof.
  unfold bump. cbn [Matrix Angle]. rewrite !upd_same, step_forth.
  repeat split; now rewrite !upd_other.
Qed.

Lemma bump_up_down_others p g q :
  q <> p ->
  Angle (bump p Minus15 (bump p Plus15 g)) q = Angle g q /\
  Matrix (bump p Minus15 (bump p Plus15 g)) q = Matrix g q.
Proof.
  intro H. unfold bump. cbn [Matrix Angle]. now rewrite !upd_other.
Qed.

(** X8: the two keys of a part cancel each other.  In a reachable state,
    for a part other than the right leg (or for any part whose matrix
    already is the one its keys compute), pressing the increment key and
    then the decrement key, or the decrement key and then the increment
    key, restores the angle and the matrix of the part and leaves every
    other part alone. *)
Theorem opposite_keys_cancel :
  forall g p inc dec,
    reachable g ->
    keys p = Some (inc, dec) ->
    p <> legRight \/ consistent g p ->
    let up_down := handleKeyPress (Some dec) (handleKeyPress (Some inc) g) in
    let down_up := handleKeyPress (Some inc) (handleKeyPress (Some dec) g) in
    forall q,
      Angle up_down q = Angle g q /\ Matrix up_down q = Matrix g q /\
      Angle down_up q = Angle g q /\ Matrix down_up q = Matrix g q.
Proof.
  intros g p inc dec Hr Hk Hc up_down down_up q.
  assert (C : consistent g p).
  { destruct Hc as [Hp | Hc]; [now apply reachable_consistent | exact Hc]. }
  unfold up_down, down_up.
  rewrite (proj1 (@key_step p inc dec g Hk)).
  rewrite (proj2 (@key_step p inc dec (bump p Plus15 g) Hk)).
  rewrite (proj2 (@key_step p inc dec g Hk)).
  rewrite (proj1 (@key_step p inc dec (bump p Minus15 g) Hk)).
  destruct (bump_up_down p g) as (A1 & M1 & _).
  destruct (bump_down_up p g) as (A2 & M2 & O2).
  destruct (Part_eq_dec q p) as [-> | Hne].
  - rewrite A1, M1, A2, M2. unfold consistent in C. now rewrite C.
  - destruct (@bump_up_down_others p g q Hne) as [-> ->].
    destruct (O2 q Hne) as [-> ->]. repeat split.
Qed.

Lemma cos_turn x : cos (x + 2 * PI) = cos x.
Proof. rewrite cos_plus, cos_2PI, sin_2PI. ring. Qed.

Lemma sin_turn x : sin (x + 2 * PI) = sin x.
Proof. rewrite sin_plus, cos_2PI, sin_2PI. ring. Qed.

Lemma cos_turn_back x : cos (x - 2 * PI) = cos x.
Proof. rewrite cos_minus, cos_2PI, sin_2PI. ring. Qed.

Lemma sin_turn_back x : sin (x - 2 * PI) = sin x.
Proof. rewrite sin_minus, cos_2PI, sin_2PI. ring. Qed.

Lemma rad_turn a : rad (a + 360) = rad a + 2 * PI.
Proof. unfold rad. field. Qed.

Lemma rad_turn_opp a : rad (- (a + 360)) = rad (- a) - 2 * PI.
Proof. unfold rad. field. Qed.

(** A full turn does not change the matrix the keys compute. *)
Lemma pose_full_turn p a : pose p (a + 360) = pose p a.
Proof.
  destruct p; unfold pose, turn_pose, swing_pose;
    rewrite ?turn_elements, ?swing_elements,
      ?rad_turn, ?rad_turn_opp, ?cos_turn, ?sin_turn,
      ?cos_turn_back, ?sin_turn_back;
    reflexivity.
Qed.

Lemma press_consistent n : forall ch g q,
  consistent g q -> consistent (press n ch g) q.
Proof.
  induction n as [| n IH]; intros ch g q H; cbn [press].
  - exact H.
  - apply IH. now apply handleKeyPress_consistent.
Qed.

Lemma press_angle n : forall p d ch g,
  key_of p d = Some ch ->
  Angle (press n (Some ch) g) p
  = match d with
    | Plus15 => Angle g p + 15 * INR n
    | Minus15 => Angle g p - 15 * INR n
    end.
Proof.
  induction n as [| n IH]; intros p d ch g Hk.
  - cbn [press INR]. destruct d; lra.
  - cbn [press]. rewrite (IH p d ch _ Hk), (@key_of_bump p d ch g Hk).
    unfold bump. cbn [Angle]. rewrite upd_same, S_INR.
    destruct d; unfold apply_step; lra.
Qed.

(** X9: twenty-four presses of the same key are a full turn: the angle
    of the part has moved by 360 degrees and, when the matrix of the part
    was the one its keys compute, the matrix is the same as before. *)
Theorem full_turn_restores_matrix :
  forall g p d ch,
    key_of p d = Some ch ->
    consistent g p ->
    Matrix (press 24 (Some ch) g) p = Matrix g p /\
    Angle (press 24 (Some ch) g) p
    = match d with
      | Plus15 => Angle g p + 360
      | Minus15 => Angle g p - 360
      end.
Proof.
  intros g p d ch Hk Hc.
  assert (HA : Angle (press 24 (Some ch) g) p
               = match d with
                 | Plus15 => Angle g p + 360
                 | Minus15 => Angle g p - 360
                 end).
  { rewrite (@press_angle 24 p d ch g Hk).
    assert (E : INR 24 = 24) by (cbn [INR]; lra).
    rewrite E. destruct d; lra. }
  split; [| exact HA].
  pose proof (@press_consistent 24 (Some ch) g p Hc) as H24.
  unfold consistent in H24, Hc. rewrite H24, HA, Hc.
  destruct d.
  - apply pose_full_turn.
  - pose proof (pose_full_turn p (Angle g p - 360)) as H.
    assert (E : Angle g p - 360 + 360 = Angle g p) by lra.
    rewrite E in H. symmetry. exact H.
Qed.

End KeyRoundTrips.

(** ** What [draw] renders *)
Section DrawOutput.
Import Hierarchy Matrix4.

(** X10: when the shader has both attributes, one run of [draw] issues
    exactly fourteen draw calls, one per part in the fixed order, each
    with the matrix pushed for the part times the scale of that part as
    model matrix and with the view matrix read from the rotator at the
    start of the run; nothing is printed. *)
Theorem draw_renders_each_part_once :
  forall gl g f,
    (0 <= positionIndex gl)%Z -> (0 <= normalIndex gl)%Z ->
    drawn (after_draw gl g f)
    = drawn f
      ++ map (fun p =>
                mkDrawCall (multiply (pushed_matrix g p) (MatrixLocal p))
                           (SimpleRotator.getViewMatrix (rotator f)))
             draw_order
    /\ console (after_draw gl g f) = console f.
Proof.
  intros gl g f Hp Hn.
  assert (E1 : (positionIndex gl <? 0)%Z = false) by (apply Z.ltb_ge; lia).
  assert (E2 : (normalIndex gl <? 0)%Z = false) by (apply Z.ltb_ge; lia).
  split.
  - unfold after_draw, draw, renderCube. rewrite E1, E2. cbn.
    rewrite <- !app_assoc. reflexivity.
  - rewrite draw_console. unfold draw_output. rewrite E1, E2.
    apply app_nil_r.
Qed.

(** X11: when the shader lacks one of the two attributes, [draw] draws
    nothing and prints one failure line per part, fourteen in all; the
    traversal of the stack is made all the same. *)
Theorem draw_without_attribute_draws_nothing :
  forall gl g f,
    (positionIndex gl < 0)%Z \/ (normalIndex gl < 0)%Z ->
    drawn (after_draw gl g f) = drawn f /\
    (exists line,
        console (after_draw gl g f) = console f ++ repeat line 14) /\
    calls (after_draw gl g f) = traversal placement_used g None figure.
Proof.
  intros gl g f H. split; [| split].
  - unfold after_draw, draw, renderCube.
    destruct (Z.ltb_spec (positionIndex gl) 0).
    + cbn. reflexivity.
    + destruct (Z.ltb_spec (normalIndex gl) 0); [| lia]. cbn. reflexivity.
  - rewrite draw_console. unfold draw_output.
    destruct (Z.ltb_spec (positionIndex gl) 0).
    + eexists. reflexivity.
    + destruct (Z.ltb_spec (normalIndex gl) 0); [| lia].
      eexists. reflexivity.
  - apply draw_calls.
Qed.

(** X12: [draw] reads the view matrix from the rotator before it sets the
    view distance to 45.  So a run of [draw] renders with the distance the
    rotator had when the run started, leaves the three unit vectors of the
    rotator alone, and every later run renders with distance 45. *)
Theorem draw_reads_view_before_setting_distance :
  forall gl g f,
    let f' := after_draw gl g f in
    view f' = SimpleRotator.getViewMatrix (rotator f) /\
    nth 14 (view f') 0 = - SimpleRotator.viewZ (rotator f) /\
    rotator f' = SimpleRotator.setViewDistance 45 (rotator f) /\
    forall gl2 g2, nth 14 (view (after_draw gl2 g2 f')) 0 = - 45.
Proof.
  intros gl g f f'.
  assert (V : forall gl0 g0 f0,
             view (after_draw gl0 g0 f0)
             = SimpleRotator.getViewMatrix (rotator f0) /\
             rotator (after_draw gl0 g0 f0)
             = SimpleRotator.setViewDistance 45 (rotator f0)).
  { intros gl0 g0 f0. unfold after_draw, draw, renderCube.
    destruct (positionIndex gl0 <? 0)%Z;
      [| destruct (normalIndex gl0 <? 0)%Z]; cbn; split; reflexivity. }
  destruct (V gl g f) as [Hv Hr]. fold f' in Hv, Hr.
  split; [exact Hv |]. split; [rewrite Hv; reflexivity |].
  split; [exact Hr |].
  intros gl2 g2. destruct (V gl2 g2 f') as [-> _]. rewrite Hr. reflexivity.
Qed.

End DrawOutput.

(** ** The trackball *)
Section Trackball.
Import SimpleRotator.

Lemma vec3_eta v : V3 (c0 v) (c1 v) (c2 v) = v.
Proof. now destruct v. Qed.

Lemma reflect_dot a u v :
  dot a a = 1 ->
  dot (reflectInAxis a u) (reflectInAxis a v) = dot u v.
Proof.
  intro H. unfold reflectInAxis, dot in *. cbn [c0 c1 c2].
  transitivity
    (c0 u * c0 v + c1 u * c1 v + c2 u * c2 v
     + 4 * (c0 a * c0 u + c1 a * c1 u + c2 a * c2 u)
         * (c0 a * c0 v + c1 a * c1 v + c2 a * c2 v)
         * (c0 a * c0 a + c1 a * c1 a + c2 a * c2 a - 1)); [ring |].
  rewrite H. ring.
Qed.

Lemma reflect_twice a v :
  dot a a = 1 -> reflectInAxis a (reflectInAxis a v) = v.
Proof.
  intro H. rewrite <- (vec3_eta v) at 2.
  unfold reflectInAxis, dot in *. cbn [c0 c1 c2].
  apply V3_ext.
  - transitivity
      (c0 v + 4 * (c0 a * c0 v + c1 a * c1 v + c2 a * c2 v) * c0 a
              * (c0 a * c0 a + c1 a * c1 a + c2 a * c2 a - 1)); [ring |].
    rewrite H. ring.
  - transitivity
      (c1 v + 4 * (c0 a * c0 v + c1 a * c1 v + c2 a * c2 v) * c1 a
              * (c0 a * c0 a + c1 a * c1 a + c2 a * c2 a - 1)); [ring |].
    rewrite H. ring.
  - transitivity
      (c2 v + 4 * (c0 a * c0 v + c1 a * c1 v + c2 a * c2 v) * c2 a
              * (c0 a * c0 a + c1 a * c1 a + c2 a * c2 a - 1)); [ring |].
    rewrite H. ring.
Qed.

(** A reflection in a unit axis, the building block of the drag
    rotation, keeps every dot product and undoes itself. *)
Lemma reflection_is_an_isometry :
  forall axis u v,
    dot axis axis = 1 ->
    dot (reflectInAxis axis u) (reflectInAxis axis v) = dot u v /\
    reflectInAxis axis (reflectInAxis axis v) = v.
Proof.
  intros axis u v H. split; [now apply reflect_dot | now apply reflect_twice].
Qed.


Lemma toRay_norm cv r x y :
  orthonormal r ->
  let dx := x - centerX cv in
  let dy := centerY cv - y in
  let vx := dx * c0 (unitx r) + dy * c0 (unity r) in
  let vy := dx * c1 (unitx r) + dy * c1 (unity r) in
  let vz := dx * c2 (unitx r) + dy * c2 (unity r) in
  vx * vx + vy * vy + vz * vz = dx * dx + dy * dy /\
  vx * c0 (unitz r) + vy * c1 (unitz r) + vz * c2 (unitz r) = 0.
Proof.
  intros (Hxx & Hyy & Hzz & Hxy & Hyz & Hxz) dx dy vx vy vz. split.
  - transitivity (dx * dx * dot (unitx r) (unitx r)
                  + 2 * dx * dy * dot (unitx r) (unity r)
                  + dy * dy * dot (unity r) (unity r)).
    + unfold vx, vy, vz, dot. ring.
    + rewrite Hxx, Hxy, Hyy. ring.
  - transitivity (dx * dot (unitx r) (unitz r)
                  + dy * dot (unity r) (unitz r)).
    + unfold vx, vy, vz, dot. ring.
    + rewrite Hxz, Hyz. ring.
Qed.

Lemma toRay_cases :
  forall cv r x y,
    orthonormal r ->
    let d2 := (x - centerX cv) * (x - centerX cv)
              + (centerY cv - y) * (centerY cv - y) in
    (d2 <= radius2 cv ->
       dot (toRay cv r x y) (toRay cv r x y) = radius2 cv) /\
    (d2 > radius2 cv ->
       dot (toRay cv r x y) (toRay cv r x y) = d2 /\
       dot (toRay cv r x y) (unitz r) = 0).
Proof.
  intros cv r x y Ho d2.
  destruct (@toRay_norm cv r x y Ho) as [Hn Hz]. cbv zeta in Hn, Hz.
  fold d2 in Hn.
  destruct Ho as (Hxx & Hyy & Hzz & Hxy & Hyz & Hxz).
  unfold toRay. cbv zeta. rewrite Hn.
  split; intro H.
  - rewrite gtb_false by exact H.
    assert (Hs : sqrt (radius2 cv - d2) * sqrt (radius2 cv - d2)
                 = radius2 cv - d2) by (apply sqrt_sqrt; lra).
    set (z := sqrt (radius2 cv - d2)) in *.
    set (vx := (x - centerX cv) * c0 (unitx r)
               + (centerY cv - y) * c0 (unity r)) in *.
    set (vy := (x - centerX cv) * c1 (unitx r)
               + (centerY cv - y) * c1 (unity r)) in *.
    set (vz := (x - centerX cv) * c2 (unitx r)
               + (centerY cv - y) * c2 (unity r)) in *.
    unfold dot in *. cbn [c0 c1 c2].
    transitivity
      ((vx * vx + vy * vy + vz * vz)
       + 2 * z * (vx * c0 (unitz r) + vy * c1 (unitz r) + vz * c2 (unitz r))
       + z * z * (c0 (unitz r) * c0 (unitz r) + c1 (unitz r) * c1 (unitz r)
                  + c2 (unitz r) * c2 (unitz r))); [ring |].
    rewrite Hn, Hz, Hzz, Hs. ring.
  - rewrite gtb_true by exact H.
    unfold dot. cbn [c0 c1 c2]. split; [exact Hn | exact Hz].
Qed.

(** X15: the sphere projection.  With an orthonormal view frame, a
    mouse point at distance at most [radius] from the centre of the canvas
    gives a ray of squared length [radius2], a point on the virtual
    sphere; a point farther away gives a ray in the image plane,
    perpendicular to [unitz], whose squared length is the squared distance
    of the point from the centre. *)
Theorem toRay_projects_on_sphere_or_plane :
  forall cv r x y,
    orthonormal r ->
    let d2 := (x - centerX cv) * (x - centerX cv)
              + (centerY cv - y) * (centerY cv - y) in
    (d2 <= radius2 cv ->
       dot (toRay cv r x y) (toRay cv r x y) = radius2 cv) /\
    (d2 > radius2 cv ->
       dot (toRay cv r x y) (toRay cv r x y) = d2 /\
       dot (toRay cv r x y) (unitz r) = 0).
Proof. exact toRay_cases. Qed.

Lemma normalize_double a : dot a a = 1 -> normalize (add a a) = a.
Proof.
  intro H. rewrite <- (vec3_eta a) at 3.
  unfold normalize, length, add. cbn [c0 c1 c2].
  assert (E : (c0 a + c0 a) * (c0 a + c0 a) + (c1 a + c1 a) * (c1 a + c1 a)
              + (c2 a + c2 a) * (c2 a + c2 a) = 2 * 2).
  { unfold dot in H.
    transitivity (4 * (c0 a * c0 a + c1 a * c1 a + c2 a * c2 a)); [ring |].
    rewrite H. ring. }
  rewrite E, sqrt_square by lra. apply V3_ext; lra.
Qed.

(** X16: a mouse move that stays on the previous point does not rotate
    the view: on a canvas of positive size and with an orthonormal frame,
    [doMouseDrag] at the recorded point leaves the three unit vectors and
    the view distance as they are. *)
Theorem drag_without_movement_is_identity :
  forall cv r x y,
    0 < width cv -> 0 < height cv ->
    orthonormal r ->
    dragging r = true -> prevx r = Some x -> prevy r = Some y ->
    unitx (doMouseDrag cv x y r) = unitx r /\
    unity (doMouseDrag cv x y r) = unity r /\
    unitz (doMouseDrag cv x y r) = unitz r /\
    viewZ (doMouseDrag cv x y r) = viewZ r.
Proof.
  intros cv r x y Hw Hh Ho Hd Hx Hy.
  assert (Hr2 : 0 < radius2 cv).
  { unfold radius2, radius, centerX, centerY.
    assert (0 < Rmin (width cv / 2) (height cv / 2)).
    { apply Rmin_glb_lt; lra. }
    nra. }
  assert (Hray : 0 < dot (toRay cv r x y) (toRay cv r x y)).
  { destruct (@toRay_cases cv r x y Ho) as [Hin Hout].
    destruct (Rle_or_lt ((x - centerX cv) * (x - centerX cv)
                         + (centerY cv - y) * (centerY cv - y))
                        (radius2 cv)) as [H | H].
    - rewrite (Hin H). exact Hr2.
    - destruct (Hout H) as [-> _]. lra. }
  pose proof (@dot_normalize _ Hray) as U.
  unfold doMouseDrag. rewrite Hd, Hx, Hy. cbn [negb].
  unfold applyTransvection. cbn [unitx unity unitz viewZ].
  rewrite (@normalize_double _ U), !(@reflect_twice _ _ U).
  repeat split.
Qed.

(** X17: [setViewMatrix] undoes [getViewMatrixArray]: storing the matrix
    a rotator returns gives the rotator back, and a rotator that was given
    a matrix of sixteen numbers returns its nine rotation entries, zeros in
    the rest of the first three columns, and its own view distance in the
    last column. *)
Theorem view_matrix_round_trip :
  forall r m,
    List.length m = 16%nat ->
    setViewMatrix (getViewMatrixArray r) r = r /\
    setViewMatrix (getViewMatrix r) r = r /\
    getViewMatrixArray (setViewMatrix m r)
    = [ nth 0 m 0; nth 1 m 0; nth 2 m 0; 0;
        nth 4 m 0; nth 5 m 0; nth 6 m 0; 0;
        nth 8 m 0; nth 9 m 0; nth 10 m 0; 0;
        0; 0; - viewZ r; 1 ].
Proof.
  intros r m _.
  assert (E : setViewMatrix (getViewMatrixArray r) r = r).
  { unfold setViewMatrix, getViewMatrixArray. cbn [nth].
    rewrite !vec3_eta. now destruct r. }
  split; [exact E |]. split; [exact E | reflexivity].
Qed.

Lemma handle_keeps_start_point cv ev r :
  (dragging r = true -> prevx r <> None /\ prevy r <> None) ->
  dragging (handle cv ev r) = true ->
  prevx (handle cv ev r) <> None /\ prevy (handle cv ev r) <> None.
Proof.
  intro I. destruct ev as [x y | x y | | d]; cbn [handle].
  - unfold doMouseDown. destruct (dragging r) eqn:E.
    + rewrite E. exact I.
    + intros _. cbn [prevx prevy]. split; discriminate.
  - unfold doMouseDrag. destruct (dragging r) eqn:E; cbn [negb].
    + destruct (I eq_refl) as [Hx Hy].
      destruct (prevx r) as [px |] eqn:Ex; [| congruence].
      destruct (prevy r) as [py |] eqn:Ey; [| congruence].
      intros _. cbn [prevx prevy]. split; discriminate.
    + rewrite E. discriminate.
  - unfold doMouseUp. destruct (dragging r) eqn:E.
    + cbn [dragging]. discriminate.
    + rewrite E. discriminate.
  - cbn [setViewDistance dragging prevx prevy]. exact I.
Qed.

Lemma handle_all_keeps_start_point cv evs : forall r,
  (dragging r = true -> prevx r <> None /\ prevy r <> None) ->
  dragging (handle_all cv evs r) = true ->
  prevx (handle_all cv evs r) <> None /\ prevy (handle_all cv evs r) <> None.
Proof.
  induction evs as [| ev evs IH]; intros r I; cbn [handle_all].
  - exact I.
  - apply IH. now apply handle_keeps_start_point.
Qed.

(** X18: a drag always has a start point.  After any events on a new
    rotator, whenever [dragging] holds the previous mouse position is
    recorded, so [doMouseDrag] never computes a ray from a missing point;
    a [mousedown] always leaves [dragging] set, a [mouseup] always leaves
    it cleared, and a [mousemove] does not change it. *)
Theorem dragging_has_a_start_point :
  forall cv dir up dist evs,
    let r := handle_all cv evs (new cv dir up dist) in
    (dragging r = true -> prevx r <> None /\ prevy r <> None) /\
    (forall x y, dragging (handle cv (MouseDown x y) r) = true) /\
    dragging (handle cv MouseUp r) = false /\
    (forall x y, dragging (handle cv (MouseMove x y) r) = dragging r).
Proof.
  intros cv dir up dist evs r.
  assert (I : dragging r = true -> prevx r <> None /\ prevy r <> None).
  { apply handle_all_keeps_start_point. cbn. discriminate. }
  split; [exact I |]. split; [| split].
  - intros x y. cbn [handle]. unfold doMouseDown.
    destruct (dragging r) eqn:E; [exact E | reflexivity].
  - cbn [handle]. unfold doMouseUp.
    destruct (dragging r) eqn:E; [reflexivity | exact E].
  - intros x y. cbn [handle]. unfold doMouseDrag.
    destruct (dragging r) eqn:E; cbn [negb]; [| exact E].
    destruct (I eq_refl) as [Hx Hy].
    destruct (prevx r) as [px |] eqn:Ex; [| congruence].
    destruct (prevy r) as [py |] eqn:Ey; [| congruence].
    unfold applyTransvection. cbn [dragging]. exact E.
Qed.

End Trackball.

(** ** Orientation, lines and segments *)
Section Segments.
Import CircleNPolyIntersec.

Lemma V2_ext a0 a1 b0 b1 : a0 = b0 -> a1 = b1 -> V2 a0 a1 = V2 b0 b1.
Proof. intros. subst. reflexivity. Qed.

Lemma sign_pos x : 0 < x -> sign x = 1.
Proof.
  intro H. unfold sign. now rewrite gtb_true by lra.
Qed.

Lemma sign_neg x : x < 0 -> sign x = -1.
Proof.
  intro H. unfold sign. rewrite gtb_false by lra.
  unfold Num.ltb. destruct (Rlt_dec x 0); [reflexivity | contradiction].
Qed.

Lemma sign_zero : sign 0 = 0.
Proof.
  unfold sign. rewrite gtb_false by lra. now rewrite ltb_not by lra.
Qed.

Lemma sign_cases x :
  (0 < x /\ sign x = 1) \/ (x = 0 /\ sign x = 0) \/ (x < 0 /\ sign x = -1).
Proof.
  destruct (Rtotal_order x 0) as [H | [H | H]].
  - right. right. split; [exact H | now apply sign_neg].
  - right. left. split; [exact H |]. rewrite H. apply sign_zero.
  - left. split; [exact H | now apply sign_pos].
Qed.

Lemma sign_opp x : sign (- x) = - sign x.
Proof.
  destruct (sign_cases x) as [[H ->] | [[H ->] | [H ->]]].
  - rewrite sign_neg by lra. reflexivity.
  - rewrite H.
    assert (E : - 0 = 0) by lra. rewrite E, sign_zero. lra.
  - rewrite sign_pos by lra. lra.
Qed.

Lemma sign_ext x y : x = y -> sign x = sign y.
Proof. intro H. now rewrite H. Qed.

Lemma orient_cross a b c : orient a b c = sign (cross a b c).
Proof.
  unfold orient, determinant, cross. apply sign_ext. ring.
Qed.

(** X19: [orient] is the sign of the signed area of the triangle: it is
    1, 0 or -1, it is 0 exactly when the three points are on one line,
    it changes sign when two points are exchanged and does not change
    when the three points are rotated. *)
Theorem orient_is_an_orientation :
  forall a b c,
    (orient a b c = 1 \/ orient a b c = 0 \/ orient a b c = -1) /\
    (orient a b c = 0 <-> cross a b c = 0) /\
    orient b a c = - orient a b c /\
    orient a c b = - orient a b c /\
    orient b c a = orient a b c.
Proof.
  intros a b c. rewrite !orient_cross.
  assert (E1 : cross b a c = - cross a b c) by (unfold cross; ring).
  assert (E2 : cross a c b = - cross a b c) by (unfold cross; ring).
  assert (E3 : cross b c a = cross a b c) by (unfold cross; ring).
  rewrite E1, E2, E3, !sign_opp.
  destruct (sign_cases (cross a b c)) as [[H ->] | [[H ->] | [H ->]]];
    repeat split; try tauto; try lra; intros; lra.
Qed.

Lemma lineDenominator_cross p1 p2 p3 p4 :
  lineDenominator p1 p2 p3 p4 = cross p3 p4 p1 - cross p3 p4 p2.
Proof. unfold lineDenominator, cross. ring. Qed.

Lemma lineIntersection_along p1 p2 p3 p4 :
  lineDenominator p1 p2 p3 p4 <> 0 ->
  lineIntersection p1 p2 p3 p4
  = along p1 p2 (cross p3 p4 p1 / lineDenominator p1 p2 p3 p4) /\
  lineIntersection p1 p2 p3 p4
  = along p3 p4 (- cross p1 p2 p3 / lineDenominator p1 p2 p3 p4).
Proof.
  intro HD. unfold lineIntersection, along, cross. cbv zeta.
  unfold lineDenominator in *.
  split; apply V2_ext; field; intro E; apply HD; lra.
Qed.

(** X20: when the denominator is not zero, the point [lineIntersection]
    returns lies on the line through the first two points and on the line
    through the last two. *)
Theorem lineIntersection_is_on_both_lines :
  forall p1 p2 p3 p4,
    lineDenominator p1 p2 p3 p4 <> 0 ->
    cross p1 p2 (lineIntersection p1 p2 p3 p4) = 0 /\
    cross p3 p4 (lineIntersection p1 p2 p3 p4) = 0.
Proof.
  intros p1 p2 p3 p4 HD.
  destruct (@lineIntersection_along p1 p2 p3 p4 HD) as [E1 E2]. split.
  - rewrite E1. unfold along, cross. cbn [px py]. ring.
  - rewrite E2. unfold along, cross. cbn [px py]. ring.
Qed.

Lemma ratio_bounds x y :
  0 <= x -> y <= 0 -> 0 < x - y -> 0 <= x / (x - y) <= 1.
Proof.
  intros Hx Hy Hd. unfold Rdiv.
  assert (Hi : 0 < / (x - y)) by now apply Rinv_0_lt_compat.
  split.
  - apply Rmult_le_pos; lra.
  - apply (Rmult_le_reg_r (x - y)); [exact Hd |].
    rewrite Rmult_assoc, Rinv_l by lra. lra.
Qed.

Lemma signs_differ x y :
  sign x <> sign y -> x - y <> 0 /\ 0 <= x / (x - y) <= 1.
Proof.
  intro H.
  destruct (sign_cases x) as [[Hx Ex] | [[Hx Ex] | [Hx Ex]]];
    destruct (sign_cases y) as [[Hy Ey] | [[Hy Ey] | [Hy Ey]]];
    rewrite Ex, Ey in H; try (exfalso; apply H; reflexivity).
  - split; [lra |]. subst y. apply ratio_bounds; lra.
  - split; [lra |]. apply ratio_bounds; lra.
  - subst x. split; [lra |]. unfold Rdiv. rewrite Rmult_0_l. lra.
  - subst x. split; [lra |]. unfold Rdiv. rewrite Rmult_0_l. lra.
  - split; [lra |].
    assert (E : x / (x - y) = (- x) / (- x - - y)) by (field; lra).
    rewrite E. apply ratio_bounds; lra.
  - split; [lra |].
    assert (E : x / (x - y) = (- x) / (- x - - y)) by (field; lra).
    rewrite E. apply ratio_bounds; lra.
Qed.

Lemma eqb_false_neq x y : Num.eqb x y = false -> x <> y.
Proof.
  unfold Num.eqb. destruct (Req_dec_T x y); [discriminate | auto].
Qed.

(** X21: [segmentsIntersect] never reports a crossing that is not there.
    When it returns true the two lines are not parallel and the point
    [lineIntersection] computes for them lies on both segments: it is
    [a + t (b - a)] and [c + u (d - c)] for some [t] and [u] between 0 and
    1. *)
Theorem segmentsIntersect_sound :
  forall a b c d,
    segmentsIntersect a b c d = true ->
    lineDenominator a b c d <> 0 /\
    exists t u,
      0 <= t <= 1 /\ 0 <= u <= 1 /\
      lineIntersection a b c d = along a b t /\
      lineIntersection a b c d = along c d u.
Proof.
  intros a b c d H. unfold segmentsIntersect in H.
  apply andb_true_iff in H as [H1 H2].
  apply negb_true_iff, eqb_false_neq in H1.
  apply negb_true_iff, eqb_false_neq in H2.
  rewrite !orient_cross in H1, H2.
  destruct (@signs_differ _ _ H1) as [N1 B1].
  destruct (@signs_differ _ _ H2) as [N2 B2].
  assert (HD : lineDenominator a b c d <> 0).
  { now rewrite lineDenominator_cross. }
  split; [exact HD |].
  destruct (@lineIntersection_along a b c d HD) as [E1 E2].
  exists (cross c d a / lineDenominator a b c d),
         (- cross a b c / lineDenominator a b c d).
  split; [| split; [| split; [exact E1 | exact E2]]].
  - now rewrite lineDenominator_cross.
  - assert (E : - cross a b c / lineDenominator a b c d
                = cross a b c / (cross a b c - cross a b d)).
    { assert (K : lineDenominator a b c d
                  = - (cross a b c - cross a b d))
        by (unfold lineDenominator, cross; ring).
      rewrite K. field. exact N1. }
    rewrite E. exact B1.
Qed.

(** X22: what [segmentsIntersect] misses and what it does not depend on.
    Segments on one common line are never reported, not even a segment
    against itself; and the answer does not change when the two segments
    are exchanged or when a segment is given by its end points in the
    other order. *)
Theorem segmentsIntersect_collinear_and_symmetric :
  forall a b c d,
    (cross a b c = 0 -> cross a b d = 0 ->
     segmentsIntersect a b c d = false) /\
    segmentsIntersect a b a b = false /\
    segmentsIntersect c d a b = segmentsIntersect a b c d /\
    segmentsIntersect b a c d = segmentsIntersect a b c d /\
    segmentsIntersect a b d c = segmentsIntersect a b c d.
Proof.
  intros a b c d.
  assert (C : forall p q r s,
             cross p q r = 0 -> cross p q s = 0 ->
             segmentsIntersect p q r s = false).
  { intros p q r s Hr Hs. unfold segmentsIntersect.
    rewrite !orient_cross, Hr, Hs, (eqb_same (sign 0)). reflexivity. }
  split; [apply C |]. split.
  - apply C; unfold cross; ring.
  - assert (O : forall p q r s,
               Num.eqb (orient q p r) (orient q p s)
               = Num.eqb (orient p q r) (orient p q s)).
    { intros p q r s. rewrite !orient_cross.
      assert (E1 : cross q p r = - cross p q r) by (unfold cross; ring).
      assert (E2 : cross q p s = - cross p q s) by (unfold cross; ring).
      rewrite E1, E2, !sign_opp. unfold Num.eqb.
      destruct (Req_dec_T (- sign (cross p q r)) (- sign (cross p q s)));
        destruct (Req_dec_T (sign (cross p q r)) (sign (cross p q s)));
        try reflexivity; exfalso; lra. }
    assert (S : forall x y, Num.eqb x y = Num.eqb y x).
    { intros x y. unfold Num.eqb.
      destruct (Req_dec_T x y), (Req_dec_T y x);
        try reflexivity; exfalso; auto. }
    unfold segmentsIntersect. repeat split.
    + apply andb_comm.
    + rewrite (O a b c d), (S (orient c d b) (orient c d a)). reflexivity.
    + rewrite (O c d a b), (S (orient a b d) (orient a b c)). reflexivity.
Qed.

End Segments.

(** ** The shapes of the 2D demo *)
Section Shapes.
Import CircleNPolyIntersec.

Lemma sqrt_four_times s : 0 <= s -> sqrt (4 * s) = 2 * sqrt s.
Proof.
  intro H. rewrite sqrt_mult by lra.
  assert (E : 4 = 2 * 2) by lra. rewrite E at 1.
  now rewrite sqrt_square by lra.
Qed.

(** X23: the polygon [isosceles] builds is an isosceles triangle: its
    first vertex is [oppositeVertex], the other two are at the same
    distance from it, [basePoint] is the middle of the side between them,
    that side is perpendicular to the axis from [oppositeVertex] to
    [basePoint] and twice as long as the axis. *)
Theorem isosceles_is_isosceles :
  forall tr,
    exists v1 v2,
      isosceles tr = [oppositeVertex tr; v1; v2] /\
      dist (oppositeVertex tr) v1 = dist (oppositeVertex tr) v2 /\
      add v1 v2 = add (basePoint tr) (basePoint tr) /\
      px (sub v1 v2) * px (sub (basePoint tr) (oppositeVertex tr))
      + py (sub v1 v2) * py (sub (basePoint tr) (oppositeVertex tr)) = 0 /\
      dist v1 v2 = 2 * dist (oppositeVertex tr) (basePoint tr).
Proof.
  intros [[bx by_] [ox oy]]. eexists. eexists.
  split; [reflexivity |].
  cbn [basePoint oppositeVertex]. unfold dist, add, sub. cbn [px py].
  repeat split.
  - apply sqrt_ext. ring.
  - apply V2_ext; ring.
  - ring.
  - assert (Hs : 0 <= (bx - ox) * (bx - ox) + (by_ - oy) * (by_ - oy)).
    { pose proof (Rle_0_sqr (bx - ox)) as H1.
      pose proof (Rle_0_sqr (by_ - oy)) as H2. unfold Rsqr in H1, H2. lra. }
    rewrite <- (sqrt_four_times Hs). apply sqrt_ext. ring.
Qed.

(** X24: the polygon of a rectangle made from a centre, a [width] and a
    [height] has the four corners [center + (width, height)],
    [center + (width, -height)], [center + (-width, -height)] and
    [center + (-width, height)]: [width] and [height] are the half
    extents of the rectangle, and its centre is the middle of both
    diagonals. *)
Theorem rectangle_corners :
  forall center width height,
    rectangle (makeRect center width height)
    = [ V2 (px center + width) (py center + height);
        V2 (px center + width) (py center - height);
        V2 (px center - width) (py center - height);
        V2 (px center - width) (py center + height) ] /\
    forall k,
      (k < 2)%nat ->
      add (nth k (rectangle (makeRect center width height)) (V2 0 0))
          (nth (k + 2) (rectangle (makeRect center width height)) (V2 0 0))
      = add center center.
Proof.
  intros [cx cy] width height.
  assert (E : rectangle (makeRect (V2 cx cy) width height)
              = [ V2 (cx + width) (cy + height);
                  V2 (cx + width) (cy - height);
                  V2 (cx - width) (cy - height);
                  V2 (cx - width) (cy + height) ]).
  { unfold rectangle, makeRect, midPoints, add, sub.
    cbn [rectCenter rectMidPoints nth px py].
    repeat (apply f_equal2; [apply V2_ext; ring |]). reflexivity. }
  split; [exact E |].
  intros k Hk. rewrite E. cbn [px py].
  destruct k as [| [| k]]; [| | lia]; cbn [nth Nat.add add px py];
    unfold add; cbn [px py]; apply V2_ext; ring.
Qed.

(** X25: the radius of a circle and its control point.  The radius that
    [updateInfo] computes from the control point [makePts] made is the
    absolute value of the radius the circle was declared with, so a
    nonnegative radius is kept; dragging the centre anchor moves centre
    and control point together and keeps the radius; dragging the control
    point leaves the centre where it is. *)
Theorem circle_radius_follows_control_point :
  forall c delta i,
    updateRadius (center c) (makeControl c) = Rabs (radius c) /\
    (0 <= radius c ->
     updateRadius (center c) (makeControl c) = radius c) /\
    (let (center', control') :=
       dragCircle 0 delta (center c) (makeControl c) in
     center' = add (center c) delta /\
     updateRadius center' control'
     = updateRadius (center c) (makeControl c)) /\
    fst (dragCircle (S i) delta (center c) (makeControl c)) = center c.
Proof.
  intros [[cx cy] r] delta i. cbn [center radius].
  assert (E : updateRadius (V2 cx cy) (makeControl (mkCircle (V2 cx cy) r))
              = Rabs r).
  { unfold updateRadius, makeControl, len, sub. cbn [center radius px py].
    rewrite <- sqrt_Rsqr_abs. apply sqrt_ext. unfold Rsqr. ring. }
  split; [exact E |]. split; [| split].
  - intro H. rewrite E. now apply Rabs_right, Rle_ge.
  - cbn [dragCircle]. split; [reflexivity |].
    unfold updateRadius, makeControl, len, sub, add.
    cbn [center radius px py]. apply sqrt_ext. ring.
  - reflexivity.
Qed.

End Shapes.

(** ** A circle against a polygon *)
Section PolygonCircle.
Import CircleNPolyIntersec.

Lemma leb_le x y : Num.leb x y = true <-> x <= y.
Proof.
  unfold Num.leb. destruct (Rle_dec x y); split; intro H;
    try reflexivity; try assumption; try discriminate; contradiction.
Qed.

(** X26: [convexPolyCircleIntersect] is true exactly when the centre is
    in the polygon or some edge of the polygon, the edge from the last
    vertex back to the first included, is at distance at most [radius]
    from the centre; so a larger radius never loses an intersection, and
    against a polygon without vertices only the point test counts. *)
Theorem polygon_circle_test :
  forall (pointIn : vec2 -> list vec2 -> bool)
         (distToSegment : vec2 -> vec2 -> vec2 -> R)
         center radius poly,
    let test := convexPolyCircleIntersect pointIn distToSegment in
    (test center radius poly = true <->
     pointIn center poly = true \/
     exists i, (i < List.length poly)%nat /\
               distToSegment center (nth i poly (V2 0 0))
                 (nth ((i + 1) mod List.length poly) poly (V2 0 0))
               <= radius) /\
    (forall radius', radius <= radius' ->
       test center radius poly = true -> test center radius' poly = true) /\
    test center radius [] = pointIn center [].
Proof.
  intros pointIn distToSegment center radius poly test.
  assert (C : forall r,
             test center r poly = true <->
             pointIn center poly = true \/
             exists i, (i < List.length poly)%nat /\
                       distToSegment center (nth i poly (V2 0 0))
                         (nth ((i + 1) mod List.length poly) poly (V2 0 0))
                       <= r).
  { intro r. unfold test, convexPolyCircleIntersect.
    destruct (pointIn center poly).
    - split; [now left | reflexivity].
    - rewrite existsb_exists. split.
      + intros (i & Hi & He). right. exists i.
        apply in_seq in Hi. split; [lia |].
        now apply leb_le.
      + intros [H | (i & Hi & He)]; [discriminate |].
        exists i. split; [apply in_seq; lia |]. now apply leb_le. }
  split; [apply C |]. split.
  - intros r' Hr H. apply C. apply C in H.
    destruct H as [H | (i & Hi & He)]; [now left |].
    right. exists i. split; [exact Hi | lra].
  - unfold test, convexPolyCircleIntersect. cbn [List.length seq existsb].
    now destruct (pointIn center []).
Qed.

End PolygonCircle.

(** ** The square *)
Section SquareFacts.
Import Square.

Lemma numPoints_6 : numPoints = 6%Z.
Proof. reflexivity. Qed.

(** X27: [mapToViewport] maps the square of side [n] around the origin
    onto the canvas, with the y axis pointing down: a point of the square
    lands inside the canvas, the upper left corner of the square on
    [(0, 0)] and the lower right corner on [(w, h)]. *)
Theorem mapToViewport_fits_canvas :
  forall vp n x y,
    let side := match n with Some v => v | None => 5 end in
    0 < side -> 0 <= w vp -> 0 <= h vp ->
    - side / 2 <= x <= side / 2 -> - side / 2 <= y <= side / 2 ->
    (0 <= fst (mapToViewport vp x y n) <= w vp /\
     0 <= snd (mapToViewport vp x y n) <= h vp) /\
    mapToViewport vp (- side / 2) (side / 2) n = (0, 0) /\
    mapToViewport vp (side / 2) (- side / 2) n = (w vp, h vp).
Proof.
  intros vp n x y side Hs Hw Hh Hx Hy.
  unfold mapToViewport. fold side. cbn [fst snd].
  assert (B : forall t s, 0 <= s -> 0 <= t <= side ->
                          0 <= t * s / side <= s).
  { intros t s H0 Ht.
    assert (E : t * s / side = t / side * s) by (field; lra).
    rewrite E.
    assert (Hq : 0 <= t / side <= 1).
    { split.
      - apply Rmult_le_pos; [lra |]. apply Rlt_le. now apply Rinv_0_lt_compat.
      - apply (Rmult_le_reg_r side); [exact Hs |].
        unfold Rdiv. rewrite Rmult_assoc, Rinv_l by lra. lra. }
    nra. }
  split; [split; apply B; lra |].
  split; apply f_equal2; field; lra.
Qed.

Lemma rem_cases i :
  (0 <= i)%Z ->
  Z.rem i 6 = 0%Z \/ Z.rem i 6 = 1%Z \/ Z.rem i 6 = 2%Z \/
  Z.rem i 6 = 3%Z \/ Z.rem i 6 = 4%Z \/ Z.rem i 6 = 5%Z.
Proof.
  intro H. pose proof (Z.rem_bound_pos i 6 H ltac:(lia)). lia.
Qed.

(** X28: [getVertex] walks the six stored points cyclically.  For every
    index from 0 on it returns a stored point, whose coordinates are 0.5
    or -0.5, and the index plus six gives the same point; for a negative
    index that is no multiple of six both coordinates are [undefined]. *)
Theorem getVertex_is_cyclic :
  forall i,
    ((0 <= i)%Z ->
     getVertex (i + 6) = getVertex i /\
     exists x y,
       getVertex i = (Some x, Some y) /\
       (x = 0.5 \/ x = -0.5) /\ (y = 0.5 \/ y = -0.5)) /\
    ((i < 0)%Z -> Z.rem i 6 <> 0%Z -> getVertex i = (None, None)).
Proof.
  intro i. split.
  - intro H. split.
    + unfold getVertex. rewrite numPoints_6.
      rewrite !Z.rem_mod_nonneg by lia.
      replace (i + 6)%Z with (i + 1 * 6)%Z by lia.
      now rewrite Z.mod_add by lia.
    + unfold getVertex. rewrite numPoints_6.
      destruct (rem_cases H) as [E | [E | [E | [E | [E | E]]]]];
        rewrite E; eexists; eexists;
        (split; [reflexivity | split; [first [left; lra | right; lra]
                                      | first [left; lra | right; lra]]]).
  - intros H Hr. unfold getVertex. rewrite numPoints_6.
    assert (H6 : (0 < 6)%Z) by lia.
    assert (Hi : (i <= 0)%Z) by lia.
    pose proof (Z.rem_bound_pos_neg i 6 H6 Hi) as B.
    unfold element.
    destruct (Z.ltb_spec (Z.rem i 6 * 2) 0); [| lia].
    destruct (Z.ltb_spec (Z.rem i 6 * 2 + 1) 0); [| lia].
    reflexivity.
Qed.

End SquareFacts.

(** ** The cube *)
Section CubeFacts.
Import Cube.



Ltac triangle_case :=
  eexists; eexists; eexists; eexists;
  split; [reflexivity |];
  split; [reflexivity |];
  split; [reflexivity |];
  split; [reflexivity |];
  cbv beta iota zeta delta [dot3 cross3 minus3]; lra.

(** X30: the twelve triangles of the mesh are wound counterclockwise
    seen from outside: for each triangle the cross product of its two
    edge vectors from the first vertex is exactly the outward normal
    stored with it. *)
Theorem makeCube_triangles_face_outwards :
  forall k,
    (k < 12)%nat ->
    exists a b c n,
      triple (vertices makeCube) (3 * k) = Some a /\
      triple (vertices makeCube) (3 * k + 1) = Some b /\
      triple (vertices makeCube) (3 * k + 2) = Some c /\
      triple (normals makeCube) (3 * k) = Some n /\
      dot3 (cross3 (minus3 b a) (minus3 c a)) n = 1.
Proof.
  intros k Hk.
  do 12 (destruct k as [| k]; [triangle_case |]). lia.
Qed.

End CubeFacts.

(** ** The frame of a new rotator *)
Section NewRotator.
Import SimpleRotator.

(** X13: [setView] builds an orthonormal frame.  When the view direction
    is not the zero vector and the up vector is not along it, the three
    unit vectors of a new rotator have length one and are perpendicular to
    each other. *)
Theorem setView_frame_is_orthonormal :
  forall cv dir up dist,
    let d := match dir with Some v => v | None => V3 0 0 10 end in
    let u := match up with Some v => v | None => V3 0 1 0 end in
    let p := subtract u (scale (normalize d) (dot (normalize d) u)) in
    0 < dot d d -> 0 < dot p p ->
    orthonormal (new cv dir up dist).
Proof.
  intros cv dir up dist d u p Hd Hp. unfold orthonormal.
  exact (@new_orthonormal cv dir up dist Hd Hp).
Qed.

Lemma default_orthonormal cv : orthonormal (new cv None None None).
Proof.
  unfold orthonormal.
  destruct (default_rotator cv) as (-> & -> & -> & _).
  unfold dot. cbn [c0 c1 c2]. repeat split; lra.
Qed.


End NewRotator.

(** ** Instances *)

(** Two values pushed on a new stack of numbers. *)
Lemma pushes_then_pops_reverse_witness :
  exists s',
    Stack.pop_n 2 (Stack.push_all [1; 2]%nat Stack.new)
    = ([Some 2; Some 1]%nat, s', []) /\
    Stack.depth s' = 0%Z /\
    forall k,
      JSArray.get (Stack.elements s') k
      = JSArray.get (Stack.elements (@Stack.new nat)) k.
Proof.
  apply (@pushes_then_pops_reverse nat Stack.new [1; 2]%nat).
  apply Stack.reach_new.
Defined.

(** A stack holding one number. *)
Lemma reachable_stack_is_a_list_witness :
  exists l,
    Stack.represents l (Stack.push 7%nat Stack.new) /\
    Stack.above_clear (Stack.push 7%nat Stack.new) /\
    match rev l with
    | [] =>
        Stack.top (Stack.push 7%nat Stack.new)
        = (None, [[LStr "top = "; LNum 0]; underflow_warning]) /\
        Stack.pop (Stack.push 7%nat Stack.new)
        = (None, Stack.push 7%nat Stack.new, [underflow_warning])
    | m :: before =>
        Stack.top (Stack.push 7%nat Stack.new) = (Some m, []) /\
        exists s',
          Stack.pop (Stack.push 7%nat Stack.new) = (Some m, s', []) /\
          Stack.represents (rev before) s'
    end.
Proof.
  apply (@reachable_stack_is_a_list nat (Stack.push 7%nat Stack.new)).
  apply Stack.reach_push, Stack.reach_new.
Defined.

(** The key [t] in the loaded state. *)
Lemma recognized_key_moves_one_part_witness :
  exists p d,
    Hierarchy.key_of p d = Some "t"%string /\
    Hierarchy.Angle
      (Hierarchy.handleKeyPress (Some "t"%string) Hierarchy.initial) p
    = Hierarchy.apply_step d (Hierarchy.Angle Hierarchy.initial p) /\
    Hierarchy.Matrix
      (Hierarchy.handleKeyPress (Some "t"%string) Hierarchy.initial) p
    = Hierarchy.pose p
        (Hierarchy.apply_step d (Hierarchy.Angle Hierarchy.initial p)) /\
    forall q, q <> p ->
      Hierarchy.Angle
        (Hierarchy.handleKeyPress (Some "t"%string) Hierarchy.initial) q
      = Hierarchy.Angle Hierarchy.initial q /\
      Hierarchy.Matrix
        (Hierarchy.handleKeyPress (Some "t"%string) Hierarchy.initial) q
      = Hierarchy.Matrix Hierarchy.initial q.
Proof.
  apply (@recognized_key_moves_one_part "t"%string Hierarchy.initial).
  reflexivity.
Defined.

Lemma reachable_after_t_s :
  Hierarchy.reachable
    (Hierarchy.handleKeys [Some "t"; Some "s"; None]%string Hierarchy.initial).
Proof. now exists [Some "t"; Some "s"; None]%string. Defined.

(** The state after the keys [t] and [s] and a special key. *)
Lemma reachable_angles_are_multiples_of_15_witness :
  exists k : Z,
    Hierarchy.Angle
      (Hierarchy.handleKeys [Some "t"; Some "s"; None]%string
                            Hierarchy.initial) Hierarchy.shoulderRight
    = 15 * IZR k.
Proof.
  apply (@reachable_angles_are_multiples_of_15
           (Hierarchy.handleKeys [Some "t"; Some "s"; None]%string
                                 Hierarchy.initial)).
  exact reachable_after_t_s.
Defined.

Lemma feet_never_move_witness :
  let g := Hierarchy.handleKeys [Some "t"; Some "s"; None]%string
                                Hierarchy.initial in
  Hierarchy.Angle g Hierarchy.footLeft = 0 /\
  Hierarchy.Angle g Hierarchy.footRight = 0 /\
  Hierarchy.Matrix g Hierarchy.footLeft
  = Matrix4.setTranslate Matrix4.identity 0 (-2) 1.6 /\
  Hierarchy.Matrix g Hierarchy.footRight
  = Matrix4.setTranslate Matrix4.identity 0 (-2) 1.6.
Proof.
  cbv zeta.
  apply (@feet_never_move
           (Hierarchy.handleKeys [Some "t"; Some "s"; None]%string
                                 Hierarchy.initial)).
  exact reachable_after_t_s.
Defined.

Lemma reachable_placements_are_rigid_witness :
  Matrix4.rigid
    (Hierarchy.Matrix
       (Hierarchy.handleKeys [Some "t"; Some "s"; None]%string
                             Hierarchy.initial) Hierarchy.shoulderRight).
Proof.
  apply (@reachable_placements_are_rigid
           (Hierarchy.handleKeys [Some "t"; Some "s"; None]%string
                                 Hierarchy.initial)).
  exact reachable_after_t_s.
Defined.

(** The keys [t] (torso) and [L] (head) in the loaded state. *)
Lemma keys_of_different_parts_commute_witness :
  let g1 := Hierarchy.handleKeyPress (Some "t"%string)
              (Hierarchy.handleKeyPress (Some "L"%string)
                                        Hierarchy.initial) in
  let g2 := Hierarchy.handleKeyPress (Some "L"%string)
              (Hierarchy.handleKeyPress (Some "t"%string)
                                        Hierarchy.initial) in
  Hierarchy.Angle g1 Hierarchy.torso = Hierarchy.Angle g2 Hierarchy.torso /\
  Hierarchy.Matrix g1 Hierarchy.torso = Hierarchy.Matrix g2 Hierarchy.torso.
Proof.
  cbv zeta.
  apply (@keys_of_different_parts_commute
           Hierarchy.torso Hierarchy.Plus15 Hierarchy.head Hierarchy.Minus15
           "t"%string "L"%string Hierarchy.initial).
  - reflexivity.
  - reflexivity.
  - discriminate.
Defined.

Lemma reachable_initial : Hierarchy.reachable Hierarchy.initial.
Proof. now exists []. Defined.

(** The keys [t] and [T] in the loaded state. *)
Lemma opposite_keys_cancel_witness :
  let g := Hierarchy.initial in
  let up_down := Hierarchy.handleKeyPress (Some "T"%string)
                   (Hierarchy.handleKeyPress (Some "t"%string) g) in
  let down_up := Hierarchy.handleKeyPress (Some "t"%string)
                   (Hierarchy.handleKeyPress (Some "T"%string) g) in
  Hierarchy.Angle up_down Hierarchy.torso = Hierarchy.Angle g Hierarchy.torso
  /\ Hierarchy.Matrix up_down Hierarchy.torso
     = Hierarchy.Matrix g Hierarchy.torso
  /\ Hierarchy.Angle down_up Hierarchy.torso
     = Hierarchy.Angle g Hierarchy.torso
  /\ Hierarchy.Matrix down_up Hierarchy.torso
     = Hierarchy.Matrix g Hierarchy.torso.
Proof.
  cbv zeta.
  apply (@opposite_keys_cancel Hierarchy.initial Hierarchy.torso
           "t"%string "T"%string).
  - exact reachable_initial.
  - reflexivity.
  - left. discriminate.
Defined.

(** Twenty-four presses of [t] in the loaded state. *)
Lemma full_turn_restores_matrix_witness :
  Hierarchy.Matrix
    (Hierarchy.press 24 (Some "t"%string) Hierarchy.initial) Hierarchy.torso
  = Hierarchy.Matrix Hierarchy.initial Hierarchy.torso /\
  Hierarchy.Angle
    (Hierarchy.press 24 (Some "t"%string) Hierarchy.initial) Hierarchy.torso
  = Hierarchy.Angle Hierarchy.initial Hierarchy.torso + 360.
Proof.
  apply (@full_turn_restores_matrix Hierarchy.initial Hierarchy.torso
           Hierarchy.Plus15 "t"%string).
  - reflexivity.
  - apply initial_consistent. discriminate.
Defined.

Lemma draw_renders_each_part_once_witness :
  Hierarchy.drawn
    (Hierarchy.after_draw (Hierarchy.mkGL 0 1) Hierarchy.initial
                          Hierarchy.first_frame)
  = Hierarchy.drawn Hierarchy.first_frame
    ++ map (fun p =>
              Hierarchy.mkDrawCall
                (Matrix4.multiply
                   (Hierarchy.pushed_matrix Hierarchy.initial p)
                   (Hierarchy.MatrixLocal p))
                (SimpleRotator.getViewMatrix
                   (Hierarchy.rotator Hierarchy.first_frame)))
           Hierarchy.draw_order
  /\ Hierarchy.console
       (Hierarchy.after_draw (Hierarchy.mkGL 0 1) Hierarchy.initial
                             Hierarchy.first_frame)
     = Hierarchy.console Hierarchy.first_frame.
Proof.
  apply (@draw_renders_each_part_once
           (Hierarchy.mkGL 0 1) Hierarchy.initial
           Hierarchy.first_frame).
  - cbn. lia.
  - cbn. lia.
Defined.

Lemma draw_without_attribute_draws_nothing_witness :
  Hierarchy.drawn
    (Hierarchy.after_draw (Hierarchy.mkGL (-1) 0) Hierarchy.initial
                          Hierarchy.first_frame)
  = Hierarchy.drawn Hierarchy.first_frame /\
  (exists line,
      Hierarchy.console
        (Hierarchy.after_draw (Hierarchy.mkGL (-1) 0) Hierarchy.initial
                              Hierarchy.first_frame)
      = Hierarchy.console Hierarchy.first_frame ++ repeat line 14) /\
  Hierarchy.calls
    (Hierarchy.after_draw (Hierarchy.mkGL (-1) 0) Hierarchy.initial
                          Hierarchy.first_frame)
  = Hierarchy.traversal Hierarchy.placement_used Hierarchy.initial None
                        Hierarchy.figure.
Proof.
  apply (@draw_without_attribute_draws_nothing
           (Hierarchy.mkGL (-1) 0) Hierarchy.initial
           Hierarchy.first_frame).
  left. cbn. lia.
Defined.


(** The rotator of the robot and the centre of its canvas. *)
Lemma toRay_projects_on_sphere_or_plane_witness :
  let cv := SimpleRotator.mkCanvas 600 400 in
  let r := SimpleRotator.new cv None None None in
  let d2 := (300 - SimpleRotator.centerX cv) * (300 - SimpleRotator.centerX cv)
            + (SimpleRotator.centerY cv - 200)
              * (SimpleRotator.centerY cv - 200) in
  (d2 <= SimpleRotator.radius2 cv ->
   SimpleRotator.dot (SimpleRotator.toRay cv r 300 200)
                     (SimpleRotator.toRay cv r 300 200)
   = SimpleRotator.radius2 cv) /\
  (d2 > SimpleRotator.radius2 cv ->
   SimpleRotator.dot (SimpleRotator.toRay cv r 300 200)
                     (SimpleRotator.toRay cv r 300 200) = d2 /\
   SimpleRotator.dot (SimpleRotator.toRay cv r 300 200)
                     (SimpleRotator.unitz r) = 0).
Proof.
  cbv zeta.
  apply (@toRay_projects_on_sphere_or_plane
           (SimpleRotator.mkCanvas 600 400)
           (SimpleRotator.new (SimpleRotator.mkCanvas 600 400)
                              None None None) 300 200).
  apply default_orthonormal.
Defined.

(** A press at the centre of the canvas and a move event at the same
    point. *)
Lemma drag_without_movement_is_identity_witness :
  let cv := SimpleRotator.mkCanvas 600 400 in
  let r := SimpleRotator.doMouseDown 300 200
             (SimpleRotator.new cv None None None) in
  SimpleRotator.unitx (SimpleRotator.doMouseDrag cv 300 200 r)
  = SimpleRotator.unitx r /\
  SimpleRotator.unity (SimpleRotator.doMouseDrag cv 300 200 r)
  = SimpleRotator.unity r /\
  SimpleRotator.unitz (SimpleRotator.doMouseDrag cv 300 200 r)
  = SimpleRotator.unitz r /\
  SimpleRotator.viewZ (SimpleRotator.doMouseDrag cv 300 200 r)
  = SimpleRotator.viewZ r.
Proof.
  cbv zeta.
  apply (@drag_without_movement_is_identity
           (SimpleRotator.mkCanvas 600 400)
           (SimpleRotator.doMouseDown 300 200
              (SimpleRotator.new (SimpleRotator.mkCanvas 600 400)
                                 None None None)) 300 200).
  - cbn [SimpleRotator.width]. lra.
  - cbn [SimpleRotator.height]. lra.
  - exact (default_orthonormal (SimpleRotator.mkCanvas 600 400)).
  - reflexivity.
  - reflexivity.
  - reflexivity.
Defined.

(** The rotator built without arguments. *)
Lemma setView_frame_is_orthonormal_witness :
  SimpleRotator.orthonormal
    (SimpleRotator.new (SimpleRotator.mkCanvas 600 400) None None None).
Proof.
  apply (@setView_frame_is_orthonormal
           (SimpleRotator.mkCanvas 600 400) None None None).
  - unfold SimpleRotator.dot.
    cbn [SimpleRotator.c0 SimpleRotator.c1 SimpleRotator.c2]. lra.
  - change (SimpleRotator.normalize (SimpleRotator.V3 0 0 10))
      with (SimpleRotator.normalize
              (SimpleRotator.copy (SimpleRotator.V3 0 0 10))).
    rewrite normalize_z10.
    unfold SimpleRotator.dot, SimpleRotator.subtract, SimpleRotator.scale.
    cbn [SimpleRotator.c0 SimpleRotator.c1 SimpleRotator.c2]. lra.
Defined.

(** The x axis and the y axis. *)
Lemma lineIntersection_is_on_both_lines_witness :
  let p1 := CircleNPolyIntersec.V2 (-1) 0 in
  let p2 := CircleNPolyIntersec.V2 1 0 in
  let p3 := CircleNPolyIntersec.V2 0 (-1) in
  let p4 := CircleNPolyIntersec.V2 0 1 in
  CircleNPolyIntersec.cross p1 p2
    (CircleNPolyIntersec.lineIntersection p1 p2 p3 p4) = 0 /\
  CircleNPolyIntersec.cross p3 p4
    (CircleNPolyIntersec.lineIntersection p1 p2 p3 p4) = 0.
Proof.
  cbv zeta.
  apply (@lineIntersection_is_on_both_lines
           (CircleNPolyIntersec.V2 (-1) 0) (CircleNPolyIntersec.V2 1 0)
           (CircleNPolyIntersec.V2 0 (-1)) (CircleNPolyIntersec.V2 0 1)).
  unfold CircleNPolyIntersec.lineDenominator.
  cbn [CircleNPolyIntersec.px CircleNPolyIntersec.py]. lra.
Defined.

Lemma unit_cross_intersects :
  CircleNPolyIntersec.segmentsIntersect
    (CircleNPolyIntersec.V2 (-1) 0) (CircleNPolyIntersec.V2 1 0)
    (CircleNPolyIntersec.V2 0 (-1)) (CircleNPolyIntersec.V2 0 1) = true.
Proof.
  unfold CircleNPolyIntersec.segmentsIntersect.
  rewrite !orient_cross. unfold CircleNPolyIntersec.cross.
  cbn [CircleNPolyIntersec.px CircleNPolyIntersec.py].
  rewrite (@sign_neg ((1 - -1) * (-1 - 0) - (0 - 0) * (0 - -1))) by lra.
  rewrite (@sign_pos ((1 - -1) * (1 - 0) - (0 - 0) * (0 - -1))) by lra.
  rewrite (@sign_pos ((0 - 0) * (0 - -1) - (1 - -1) * (-1 - 0))) by lra.
  rewrite (@sign_neg ((0 - 0) * (0 - -1) - (1 - -1) * (1 - 0))) by lra.
  rewrite (@eqb_diff (-1) 1), (@eqb_diff 1 (-1)) by lra. reflexivity.
Defined.

(** The two segments of a cross of unit arms. *)
Lemma segmentsIntersect_sound_witness :
  let a := CircleNPolyIntersec.V2 (-1) 0 in
  let b := CircleNPolyIntersec.V2 1 0 in
  let c := CircleNPolyIntersec.V2 0 (-1) in
  let d := CircleNPolyIntersec.V2 0 1 in
  CircleNPolyIntersec.lineDenominator a b c d <> 0 /\
  exists t u,
    0 <= t <= 1 /\ 0 <= u <= 1 /\
    CircleNPolyIntersec.lineIntersection a b c d
    = CircleNPolyIntersec.along a b t /\
    CircleNPolyIntersec.lineIntersection a b c d
    = CircleNPolyIntersec.along c d u.
Proof.
  cbv zeta.
  apply (@segmentsIntersect_sound
           (CircleNPolyIntersec.V2 (-1) 0) (CircleNPolyIntersec.V2 1 0)
           (CircleNPolyIntersec.V2 0 (-1)) (CircleNPolyIntersec.V2 0 1)).
  exact unit_cross_intersects.
Defined.

(** A vertex of the square on a canvas of 600 by 400, with the default
    side. *)
Lemma mapToViewport_fits_canvas_witness :
  let vp := Square.mkViewport 600 400 in
  (0 <= fst (Square.mapToViewport vp 0.5 (-0.5) None) <= Square.w vp /\
   0 <= snd (Square.mapToViewport vp 0.5 (-0.5) None) <= Square.h vp) /\
  Square.mapToViewport vp (- 5 / 2) (5 / 2) None = (0, 0) /\
  Square.mapToViewport vp (5 / 2) (- 5 / 2) None
  = (Square.w vp, Square.h vp).
Proof.
  cbv zeta.
  apply (@mapToViewport_fits_canvas (Square.mkViewport 600 400) None
           0.5 (-0.5)).
  - lra.
  - cbn [Square.w]. lra.
  - cbn [Square.h]. lra.
  - lra.
  - lra.
Defined.

(** The first triangle of the cube. *)
Lemma makeCube_triangles_face_outwards_witness :
  exists a b c n,
    Cube.triple (Cube.vertices Cube.makeCube) (3 * 0) = Some a /\
    Cube.triple (Cube.vertices Cube.makeCube) (3 * 0 + 1) = Some b /\
    Cube.triple (Cube.vertices Cube.makeCube) (3 * 0 + 2) = Some c /\
    Cube.triple (Cube.normals Cube.makeCube) (3 * 0) = Some n /\
    Cube.dot3 (Cube.cross3 (Cube.minus3 b a) (Cube.minus3 c a)) n = 1.
Proof.
  apply (@makeCube_triangles_face_outwards 0). lia.
Defined.

(** The rotator of the robot and a view matrix with another distance. *)
Lemma view_matrix_round_trip_witness :
  let r := SimpleRotator.new (SimpleRotator.mkCanvas 600 400)
                             None None None in
  let m := [1; 0; 0; 0;  0; 1; 0; 0;  0; 0; 1; 0;  0; 0; -45; 1] in
  SimpleRotator.setViewMatrix (SimpleRotator.getViewMatrixArray r) r = r /\
  SimpleRotator.setViewMatrix (SimpleRotator.getViewMatrix r) r = r /\
  SimpleRotator.getViewMatrixArray (SimpleRotator.setViewMatrix m r)
  = [ nth 0 m 0; nth 1 m 0; nth 2 m 0; 0;
      nth 4 m 0; nth 5 m 0; nth 6 m 0; 0;
      nth 8 m 0; nth 9 m 0; nth 10 m 0; 0;
      0; 0; - SimpleRotator.viewZ r; 1 ].
Proof.
  cbv zeta.
  apply (@view_matrix_round_trip
           (SimpleRotator.new (SimpleRotator.mkCanvas 600 400)
                              None None None)
           [1; 0; 0; 0;  0; 1; 0; 0;  0; 0; 1; 0;  0; 0; -45; 1]).
  reflexivity.
Defined.
